(** * Heat-pump calculator: the calculation engine of [calc]

    A shallow embedding of the helper functions ([toNumber], [parsePairs],
    [interpCOP], [normalizeBins]) and of the body of the [calc] memo of the
    calculator component, followed by the properties of the engine.

    JavaScript numbers are modelled as exact rationals extended with the
    three IEEE special values [+Infinity], [-Infinity] and [NaN]: arithmetic
    on finite values is exact (no rounding, overflow or underflow), a
    division by zero and the arithmetic of the special values follow
    IEEE 754, and the negative zero is identified with zero.  Text is
    modelled as strings of 8-bit characters, of which only the ASCII
    white-space characters count as white space. *)

From Stdlib Require Import QArith Qround Qabs ZArith List String Ascii Bool.
From Stdlib Require Import Lia Lqa Sorted Permutation.
Import ListNotations.

Local Open Scope Q_scope.

(** ** JavaScript numbers *)

Module JsNum.

Inductive num : Type :=
| Fin (q : Q)
| PInf
| NInf
| NaN.

Definition isFinite (a : num) : bool :=
  match a with Fin _ => true | _ => false end.

(** Rational value of a finite number (0 for the special values). *)
Definition val (a : num) : Q :=
  match a with Fin q => q | _ => 0 end.

Definition jneg (a : num) : num :=
  match a with
  | Fin q => Fin (- q)
  | PInf => NInf
  | NInf => PInf
  | NaN => NaN
  end.

(** [a + b] *)
Definition jadd (a b : num) : num :=
  match a, b with
  | Fin p, Fin q => Fin (p + q)
  | NaN, _ | _, NaN => NaN
  | PInf, NInf | NInf, PInf => NaN
  | PInf, _ | _, PInf => PInf
  | NInf, _ | _, NInf => NInf
  end.

(** [a - b] *)
Definition jsub (a b : num) : num :=
  match a, b with
  | Fin p, Fin q => Fin (p - q)
  | _, _ => jadd a (jneg b)
  end.

(** The product of an infinity (positive when [pos]) and the finite [q];
    [NaN] for [q = 0]. *)
Definition infTimes (pos : bool) (q : Q) : num :=
  match q ?= 0 with
  | Eq => NaN
  | Gt => if pos then PInf else NInf
  | Lt => if pos then NInf else PInf
  end.

(** [a * b] *)
Definition jmul (a b : num) : num :=
  match a, b with
  | Fin p, Fin q => Fin (p * q)
  | NaN, _ | _, NaN => NaN
  | Fin p, PInf | PInf, Fin p => infTimes true p
  | Fin p, NInf | NInf, Fin p => infTimes false p
  | PInf, PInf | NInf, NInf => PInf
  | PInf, NInf | NInf, PInf => NInf
  end.

(** [a / b]: a finite non-zero value over zero is an infinity, [0 / 0] is
    [NaN], a finite value over an infinity is zero. *)
Definition jdiv (a b : num) : num :=
  match a, b with
  | Fin p, Fin q =>
      if Qeq_bool q 0 then infTimes true p else Fin (p / q)
  | NaN, _ | _, NaN => NaN
  | Fin _, PInf | Fin _, NInf => Fin 0
  | PInf, Fin q => match q ?= 0 with Lt => NInf | _ => PInf end
  | NInf, Fin q => match q ?= 0 with Lt => PInf | _ => NInf end
  | PInf, PInf | PInf, NInf | NInf, PInf | NInf, NInf => NaN
  end.

(** Three-way comparison; [None] when an operand is [NaN]. *)
Definition jcmp (a b : num) : option comparison :=
  match a, b with
  | NaN, _ | _, NaN => None
  | Fin p, Fin q => Some (p ?= q)
  | PInf, PInf | NInf, NInf => Some Eq
  | _, PInf | NInf, _ => Some Lt
  | PInf, _ | _, NInf => Some Gt
  end.

(** [a < b], [a <= b], [a > b], [a >= b] *)
Definition jlt (a b : num) : bool :=
  match jcmp a b with Some Lt => true | _ => false end.
Definition jle (a b : num) : bool :=
  match jcmp a b with Some Lt | Some Eq => true | _ => false end.
Definition jgt (a b : num) : bool := jlt b a.
Definition jge (a b : num) : bool := jle b a.

(** Truthiness of a number: [0] and [NaN] are falsy. *)
Definition truthy (a : num) : bool :=
  match a with
  | Fin q => negb (Qeq_bool q 0)
  | PInf | NInf => true
  | NaN => false
  end.

(** [a || b] on numbers *)
Definition jor (a b : num) : num := if truthy a then a else b.

Definition Math_abs (a : num) : num :=
  match a with
  | Fin q => Fin (Qabs q)
  | PInf | NInf => PInf
  | NaN => NaN
  end.

Definition Math_min (a b : num) : num :=
  match jcmp a b with
  | None => NaN
  | Some Gt => b
  | Some _ => a
  end.

Definition Math_max (a b : num) : num :=
  match jcmp a b with
  | None => NaN
  | Some Lt => b
  | Some _ => a
  end.

(** [Math.round]: the nearest integer, a tie going up. *)
Definition Math_round (a : num) : num :=
  match a with
  | Fin q => Fin (inject_Z (Qfloor (q + (1 # 2))))
  | _ => a
  end.

(** [Number(a.toFixed(d))]: [a] rounded to [d] decimals, a tie going away
    from zero; values of magnitude at least [10^21] and the special values
    are printed and read back unchanged. *)
Definition toFixed (d : nat) (a : num) : num :=
  match a with
  | Fin q =>
      if Qle_bool (inject_Z (10 ^ 21)) (Qabs q) then Fin q
      else
        let scale := inject_Z (10 ^ Z.of_nat d) in
        let n := Qfloor (Qabs q * scale + (1 # 2)) in
        let r := inject_Z n / scale in
        Fin (if Qle_bool 0 q then r else - r)
  | _ => a
  end.

(** Equality of numbers as values (fractions are not reduced). *)
Definition num_eq (a b : num) : Prop :=
  match a, b with
  | Fin p, Fin q => p == q
  | PInf, PInf | NInf, NInf | NaN, NaN => True
  | _, _ => False
  end.

End JsNum.
Export JsNum.

(** ** JavaScript strings and [Number(text)] *)

Module JsText.

Local Open Scope string_scope.
Local Open Scope char_scope.

Definition code (c : ascii) : Z := Z.of_N (N_of_ascii c).

(** TAB, LF, VT, FF, CR and the space. *)
Definition isWhite (c : ascii) : bool :=
  let n := code c in
  ((9 <=? n) && (n <=? 13) || (n =? 32))%Z.

Fixpoint trimStart (s : string) : string :=
  match s with
  | String c r => if isWhite c then trimStart r else s
  | EmptyString => EmptyString
  end.

Fixpoint trimEnd (s : string) : string :=
  match s with
  | EmptyString => EmptyString
  | String c r =>
      match trimEnd r with
      | EmptyString => if isWhite c then EmptyString else String c EmptyString
      | r' => String c r'
      end
  end.

(** [s.trim()] *)
Definition trim (s : string) : string := trimEnd (trimStart s).

(** [s.split(sep)] for a separator matching one character: the pieces
    between the separators, empty pieces included; never an empty array. *)
Fixpoint splitBy (sep : ascii -> bool) (s : string) : list string :=
  match s with
  | EmptyString => [EmptyString]
  | String c r =>
      if sep c then EmptyString :: splitBy sep r
      else
        match splitBy sep r with
        | piece :: more => String c piece :: more
        | [] => [String c EmptyString]
        end
  end.

Definition digitIn (lo : Z) (count : Z) (off : Z) (c : ascii) : option Z :=
  let n := code c in
  if ((lo <=? n) && (n <? lo + count))%Z then Some (n - lo + off)%Z else None.

Definition decDigit : ascii -> option Z := digitIn 48 10 0.
Definition octDigit : ascii -> option Z := digitIn 48 8 0.
Definition binDigit : ascii -> option Z := digitIn 48 2 0.
Definition hexDigit (c : ascii) : option Z :=
  match decDigit c with
  | Some d => Some d
  | None =>
      match digitIn 97 6 10 c with
      | Some d => Some d
      | None => digitIn 65 6 10 c
      end
  end.

(** Reads the longest prefix of digits: their value in the base, how many
    were read, and the rest of the text. *)
Fixpoint readDigits (dv : ascii -> option Z) (base : Z) (s : string)
    (acc : Z) (n : nat) : Z * nat * string :=
  match s with
  | String c r =>
      match dv c with
      | Some d => readDigits dv base r (acc * base + d)%Z (S n)
      | None => (acc, n, s)
      end
  | EmptyString => (acc, n, s)
  end.

(** ExponentPart (optional), which must end the literal. *)
Definition readExponent (s : string) : option Z :=
  match s with
  | EmptyString => Some 0%Z
  | String c r =>
      if (c =? "e") || (c =? "E") then
        let '(neg, r') :=
          match r with
          | String "+" r2 => (false, r2)
          | String "-" r2 => (true, r2)
          | _ => (false, r)
          end in
        match readDigits decDigit 10 r' 0 0 with
        | (e, S _, EmptyString) => Some (if neg then (- e)%Z else e)
        | _ => None
        end
      else None
  end.

(** StrUnsignedDecimalLiteral *)
Definition unsignedDecimal (s : string) : option num :=
  if (s =? "Infinity")%string then Some PInf
  else
    let '(ip, ni, r1) := readDigits decDigit 10 s 0 0 in
    let '(fp, nf, r2) :=
      match r1 with
      | String "." r => readDigits decDigit 10 r 0 0
      | _ => (0%Z, 0%nat, r1)
      end in
    match (ni + nf)%nat with
    | O => None
    | S _ =>
        match readExponent r2 with
        | Some e =>
            Some (Fin (inject_Z (ip * 10 ^ Z.of_nat nf + fp)
                       * Qpower (10 # 1) (e - Z.of_nat nf)))
        | None => None
        end
    end.

(** StrDecimalLiteral *)
Definition strDecimal (s : string) : option num :=
  match s with
  | String "+" r => unsignedDecimal r
  | String "-" r => option_map jneg (unsignedDecimal r)
  | _ => unsignedDecimal s
  end.

(** NonDecimalIntegerLiteral: [0x], [0o], [0b] and digits. *)
Definition nonDecimal (s : string) : option num :=
  match s with
  | String "0" (String p r) =>
      let lit (dv : ascii -> option Z) (base : Z) :=
        match readDigits dv base r 0 0 with
        | (v, S _, EmptyString) => Some (Fin (inject_Z v))
        | _ => None
        end in
      if (p =? "x") || (p =? "X") then lit hexDigit 16%Z
      else if (p =? "o") || (p =? "O") then lit octDigit 8%Z
      else if (p =? "b") || (p =? "B") then lit binDigit 2%Z
      else None
  | _ => None
  end.

(** [Number(s)] for a string: the empty or blank text is [0], a numeric
    literal is its value, anything else is [NaN]. *)
Definition Number (s : string) : num :=
  match trim s with
  | EmptyString => Fin 0
  | t =>
      match nonDecimal t with
      | Some v => v
      | None =>
          match strDecimal t with
          | Some v => v
          | None => NaN
          end
      end
  end.

(** [Number(v)] where [v] may be [undefined]. *)
Definition NumberOpt (v : option string) : num :=
  match v with
  | Some s => Number s
  | None => NaN
  end.

(** [Boolean(s)] for a string *)
Definition nonEmpty (s : string) : bool :=
  match s with
  | EmptyString => false
  | String _ _ => true
  end.

End JsText.
Export JsText.

Local Open Scope string_scope.
Local Open Scope list_scope.
Local Open Scope Q_scope.

(** ** Helpers *)

(** [{ x, y }] *)
Record coord : Type := mkCoord { cx : num; cy : num }.

(** [toNumber(value, fallback)] *)
Definition toNumber (value : string) (fallback : num) : num :=
  let n := Number value in
  if isFinite n then n else fallback.

Definition isNewlineOrComma (c : ascii) : bool :=
  ((c =? "010") || (c =? ","))%char.

Definition isColon (c : ascii) : bool := (c =? ":")%char.

(** The arrow function mapped over the entries of [parsePairs]:
    [const [a, b] = pair.split(":").map((t) => t.trim())] and
    [{ x: Number(a), y: Number(b) }]; [b] is [undefined] when the entry has
    no colon. *)
Definition pairOf (pair : string) : coord :=
  let pieces := map trim (splitBy isColon pair) in
  mkCoord (NumberOpt (nth_error pieces 0)) (NumberOpt (nth_error pieces 1)).

Definition finiteCoord (p : coord) : bool :=
  isFinite (cx p) && isFinite (cy p).

(** [.sort((a, b) => a.x - b.x)]: the sort of an array is stable, so that
    on coordinates with finite [x] it is the stable insertion sort on [x]. *)
Fixpoint insertByX (p : coord) (l : list coord) : list coord :=
  match l with
  | [] => [p]
  | q :: l' =>
      if jgt (jsub (cx p) (cx q)) (Fin 0) then q :: insertByX p l'
      else p :: l
  end.

Fixpoint sortByX (l : list coord) : list coord :=
  match l with
  | [] => []
  | p :: l' => insertByX p (sortByX l')
  end.

(** The trimmed, non-empty entries of a text. *)
Definition entries (text : string) : list string :=
  filter nonEmpty (map trim (splitBy isNewlineOrComma text)).

Definition parsePairs (text : string) : list coord :=
  sortByX (filter finiteCoord (map pairOf (entries text))).

(** The loop of [interpCOP] over the adjacent pairs of the table; [dflt] is
    the value returned after the loop. *)
Fixpoint scanPairs (table : list coord) (t : num) (dflt : num) : num :=
  match table with
  | a :: ((b :: _) as rest) =>
      if jge t (cx a) && jle t (cx b) then
        let frac := jdiv (jsub t (cx a)) (jor (jsub (cx b) (cx a)) (Fin 1)) in
        jadd (cy a) (jmul frac (jsub (cy b) (cy a)))
      else scanPairs rest t dflt
  | _ => dflt
  end.

Definition interpCOP (table : list coord) (t : num) : num :=
  match table with
  | [] => Fin (22 # 10)
  | first :: _ =>
      let lst := last table first in
      if jle t (cx first) then cy first
      else if jge t (cx lst) then cy lst
      else scanPairs table t (cy lst)
  end.

(** [bins.reduce((s, r) => s + r.y, 0)] *)
Definition sumY (bins : list coord) : num :=
  fold_left (fun s r => jadd s (cy r)) bins (Fin 0).

Definition normalizeBins (bins : list coord) : list coord :=
  let total := jor (sumY bins) (Fin 1) in
  map (fun r => mkCoord (cx r) (jdiv (jmul (cy r) (Fin 100)) total)) bins.

(** ** Defaults *)

Module DEFAULTS.
Definition kwhBase : num := Fin 97300.
Definition supplyC : num := Fin (3331 # 1000).
Definition txC : num := Fin (1767 # 1000).
Definition dfcNon : num := Fin (6062 # 1000).
Definition dfcEH : num := Fin (2924 # 1000).
Definition gasSupply : num := Fin (52 # 100).
Definition gasDist : num := Fin (2134 # 10000).
Definition afue : num := Fin (95 # 100).
Definition heatMMBtu : num := Fin (375 # 10).
Definition seasonalCOP : num := Fin (22 # 10).
Definition gross : num := Fin 10354.
Definition credits : num := Fin 2600.
End DEFAULTS.

Definition DEFAULT_COP : string := "60:3.77
55:3.56
50:3.39
45:3.24
40:3.12
35:2.75
30:2.62
25:2.50
20:2.37
15:2.24
10:2.11
5:2.00
0:1.87
-5:1.74
-10:1.65".

Definition DEFAULT_BINS : string := "60:0
55:2
50:4
45:6
40:8
35:11
30:13
25:14
20:13
15:10
10:8
5:6
0:3
-5:1.5
-10:0.5".

(** ** The component state read by [calc] *)

(** The [inputs] state: the text of the twelve input fields. *)
Module Inputs.
Record t : Type := mk {
  kwhBase : string;
  supplyC : string;
  txC : string;
  dfcNon : string;
  dfcEH : string;
  gasSupply : string;
  gasDist : string;
  afue : string;
  heatMMBtu : string;
  seasonalCOP : string;
  gross : string;
  credits : string
}.
End Inputs.

(** A row of the per-bin matrix. *)
Record matrixRow : Type := mkRow {
  row_t : num;
  row_pct : num;
  row_cop : num;
  row_hpCost : num;
  row_gasCost : num;
  row_cheaper : string
}.

(** A point [{ t, hp, gas }] of the crossover series. *)
Record seriesPoint : Type := mkPoint {
  pt_t : num;
  pt_hp : num;
  pt_gas : num
}.

(** ** The loop over the bins *)

(** The variables the loop [for (const b of bins)] updates. *)
Record binState : Type := mkBinState {
  st_hpKWh : num;
  st_costHPsum : num;
  st_costGASsum : num;
  st_hybridGasMMBtu : num;
  st_matrix : list matrixRow
}.

Definition kWhPerMMBtu : num := Fin (293071 # 1000).

(** One iteration of the loop. *)
Definition binStep (heatMMBtu allInEH costGasPerMMBtu : num)
    (table : list coord) (st : binState) (b : coord) : binState :=
  let t := cx b in
  let share := jdiv (cy b) (Fin 100) in
  let mmbtu := jmul heatMMBtu share in
  let cop := interpCOP table t in
  let kwhPerMMBtu := jdiv kWhPerMMBtu cop in
  let costHPperMMBtu := jmul kwhPerMMBtu allInEH in
  let hpKWh := jadd (st_hpKWh st) (jmul mmbtu kwhPerMMBtu) in
  let row := mkRow t (toFixed 2 (cy b)) (toFixed 2 cop)
               (toFixed 2 costHPperMMBtu) (toFixed 2 costGasPerMMBtu) in
  if jle costHPperMMBtu costGasPerMMBtu then
    mkBinState hpKWh
      (jadd (st_costHPsum st) (jmul mmbtu costHPperMMBtu))
      (st_costGASsum st)
      (st_hybridGasMMBtu st)
      (st_matrix st ++ [row "HP"])
  else
    mkBinState hpKWh
      (st_costHPsum st)
      (jadd (st_costGASsum st) (jmul mmbtu costGasPerMMBtu))
      (jadd (st_hybridGasMMBtu st) mmbtu)
      (st_matrix st ++ [row "Gas"]).

Definition binLoop (heatMMBtu allInEH costGasPerMMBtu : num)
    (table bins : list coord) : binState :=
  fold_left (binStep heatMMBtu allInEH costGasPerMMBtu table) bins
    (mkBinState (Fin 0) (Fin 0) (Fin 0) (Fin 0) []).

(** ** The crossover scan *)

(** [hpCost(t)] of the crossover block *)
Definition hpCostAt (table : list coord) (allInEH : num) (t : num) : num :=
  jmul (jdiv kWhPerMMBtu (interpCOP table t)) allInEH.

(** The sign-change test of the scan. *)
Definition signChange (prevDiff diff : num) : bool :=
  (jle prevDiff (Fin 0) && jge diff (Fin 0))
  || (jge prevDiff (Fin 0) && jle diff (Fin 0)).

(** The loop [for (let t = tMin; t <= tMax; t++)], from its state at the
    test [t <= tMax]: the crossover temperature if the loop breaks, and the
    series pushed so far.  [fuel] bounds the number of iterations. *)
Fixpoint crossScan (fuel : nat) (table : list coord)
    (allInEH costGasPerMMBtu tMax : num)
    (t prevT prevDiff : num) (series : list seriesPoint)
    : option num * list seriesPoint :=
  match fuel with
  | O => (None, series)
  | S fuel' =>
      if jle t tMax then
        let cHP := hpCostAt table allInEH t in
        let series' := series ++ [mkPoint t cHP costGasPerMMBtu] in
        let diff := jsub cHP costGasPerMMBtu in
        if signChange prevDiff diff then
          let frac :=
            if jlt (Math_abs (jsub diff prevDiff)) (Fin (1 # 1000000000))
            then Fin 0
            else jdiv (jsub (Fin 0) prevDiff) (jsub diff prevDiff) in
          (Some (toFixed 1 (jadd prevT (jmul frac (jsub t prevT)))), series')
        else
          crossScan fuel' table allInEH costGasPerMMBtu tMax
            (jadd t (Fin 1)) t diff series'
      else (None, series)
  end.

(** The number of values [tMin, tMin + 1, ...] that are at most [tMax]. *)
Definition scanFuel (tMin tMax : num) : nat :=
  match jsub tMax tMin with
  | Fin d => Z.to_nat (Qfloor d + 1)
  | _ => O
  end.

Definition NOTE_HP : string := "HP cheaper at all temps".
Definition NOTE_GAS : string := "Gas cheaper at all temps".
Definition NOTE_OUTSIDE : string := "Crossover outside modeled range".
Definition NOTE_PROVIDE : string :=
  "Provide a COP table to compute a precise crossover temperature".

(** The block "crossover temp + series for chart":
    [(crossoverTemp, crossoverNote, crossoverSeries)]. *)
Definition crossover (useCopTable : bool) (copText : string)
    (allInEH costGasPerMMBtu : num)
    : option num * string * list seriesPoint :=
  if useCopTable then
    let table := parsePairs copText in
    match table with
    | first :: _ :: _ =>
        let tMin := Math_min (Fin (-20)) (cx first) in
        let tMax := Math_max (Fin 65) (cx (last table first)) in
        let hpCost := hpCostAt table allInEH in
        let prevDiff := jsub (hpCost tMin) costGasPerMMBtu in
        let '(crossoverTemp, crossoverSeries) :=
          crossScan (scanFuel tMin tMax) table allInEH costGasPerMMBtu tMax
            tMin tMin prevDiff [] in
        match crossoverTemp with
        | Some _ => (crossoverTemp, "", crossoverSeries)
        | None =>
            let diffAtMin := jsub (hpCost tMin) costGasPerMMBtu in
            let diffAtMax := jsub (hpCost tMax) costGasPerMMBtu in
            let crossoverNote :=
              if jlt diffAtMin (Fin 0) && jlt diffAtMax (Fin 0) then NOTE_HP
              else if jgt diffAtMin (Fin 0) && jgt diffAtMax (Fin 0)
              then NOTE_GAS
              else NOTE_OUTSIDE in
            (None, crossoverNote, crossoverSeries)
        end
    | _ => (None, "", [])
    end
  else (None, NOTE_PROVIDE, []).

(** ** [calc] *)

(** The local variables of the body of [calc], at its [return]. *)
Module Vars.
Record t : Type := mk {
  kWhBase : num;
  supplyC : num;
  txC : num;
  dfcNon : num;
  dfcEH : num;
  gasSupply : num;
  gasDist : num;
  afue : num;
  heatMMBtu : num;
  seasonalCOP : num;
  gross : num;
  credits : num;
  gasAllIn : num;
  allInNon : num;
  allInEH : num;
  baselineElec : num;
  baselineGas : num;
  baseline : num;
  hpKWh : num;
  hybrid : option num;
  hybridGasMMBtu : num;
  hybridHPkWh : num;
  matrix : list matrixRow;
  allElectric : num;
  savingsAll : num;
  savingsHybrid : option num;
  net : num;
  paybackAll : option num;
  paybackHybrid : option num;
  dfcSavings : num;
  costGasPerMMBtu : num;
  crossoverTemp : option num;
  crossoverNote : string;
  crossoverSeries : list seriesPoint
}.
End Vars.

(** The record returned by [calc]; [None] is [null]. *)
Module Out.
Record t : Type := mk {
  baseline : num;
  allElectric : num;
  hybrid : option num;
  hybridGasMMBtu : num;
  hybridHPkWh : num;
  savingsAll : num;
  savingsHybrid : option num;
  paybackAll : option num;
  paybackHybrid : option num;
  dfcSavings : num;
  gasHeatCost : num;
  hpHeatCost : num;
  fuelSwitchSavings : num;
  chart : list (string * num);
  crossoverTemp : option num;
  crossoverNote : string;
  crossoverSeries : list seriesPoint;
  matrix : list matrixRow
}.
End Out.

(** [savings > 0 ? net / savings : null], and
    [savings && savings > 0 ? net / savings : null] for a nullable
    [savings]. *)
Definition paybackOf (net savings : num) : option num :=
  if jgt savings (Fin 0) then Some (jdiv net savings) else None.

Definition paybackOfNullable (net : num) (savings : option num)
    : option num :=
  match savings with
  | Some s => if truthy s && jgt s (Fin 0) then Some (jdiv net s) else None
  | None => None
  end.

(** [payback ? Number(payback.toFixed(1)) : null] *)
Definition paybackOut (payback : option num) : option num :=
  match payback with
  | Some p => if truthy p then Some (toFixed 1 p) else None
  | None => None
  end.

(** The body of [calc] up to its [return]. *)
Definition calcVars (inputs : Inputs.t) (useCopTable : bool)
    (copText binsText : string) : Vars.t :=
  let kWhBase := toNumber (Inputs.kwhBase inputs) DEFAULTS.kwhBase in
  let supplyC := toNumber (Inputs.supplyC inputs) DEFAULTS.supplyC in
  let txC := toNumber (Inputs.txC inputs) DEFAULTS.txC in
  let dfcNon := toNumber (Inputs.dfcNon inputs) DEFAULTS.dfcNon in
  let dfcEH := toNumber (Inputs.dfcEH inputs) DEFAULTS.dfcEH in
  let gasSupply := toNumber (Inputs.gasSupply inputs) DEFAULTS.gasSupply in
  let gasDist := toNumber (Inputs.gasDist inputs) DEFAULTS.gasDist in
  let afue := toNumber (Inputs.afue inputs) DEFAULTS.afue in
  let heatMMBtu := toNumber (Inputs.heatMMBtu inputs) DEFAULTS.heatMMBtu in
  let seasonalCOP :=
    toNumber (Inputs.seasonalCOP inputs) DEFAULTS.seasonalCOP in
  let gross := toNumber (Inputs.gross inputs) DEFAULTS.gross in
  let credits := toNumber (Inputs.credits inputs) DEFAULTS.credits in

  let gasAllIn := jadd gasSupply gasDist in
  let allInNon := jdiv (jadd (jadd supplyC txC) dfcNon) (Fin 100) in
  let allInEH := jdiv (jadd (jadd supplyC txC) dfcEH) (Fin 100) in

  let baselineElec := jmul kWhBase allInNon in
  let baselineGas :=
    jmul (jdiv (jdiv heatMMBtu (Fin (1 # 10))) afue) gasAllIn in
  let baseline := jadd baselineElec baselineGas in

  let costGasPerMMBtu :=
    jmul (jdiv (jdiv (Fin 1) (Fin (1 # 10))) afue) gasAllIn in
  let st :=
    binLoop heatMMBtu allInEH costGasPerMMBtu
      (parsePairs copText) (normalizeBins (parsePairs binsText)) in
  let hpKWh :=
    if useCopTable then st_hpKWh st
    else jdiv (jmul heatMMBtu kWhPerMMBtu) seasonalCOP in
  let hybrid :=
    if useCopTable then
      Some (jadd (jadd (jmul kWhBase allInEH) (st_costHPsum st))
              (st_costGASsum st))
    else None in
  let hybridGasMMBtu :=
    if useCopTable then st_hybridGasMMBtu st else Fin 0 in
  let hybridHPkWh := Fin 0 in
  let matrix := if useCopTable then st_matrix st else [] in

  let allElectric := jmul (jadd kWhBase hpKWh) allInEH in
  let savingsAll := jsub baseline allElectric in
  let savingsHybrid := option_map (jsub baseline) hybrid in

  let net := jsub gross credits in
  let paybackAll := paybackOf net savingsAll in
  let paybackHybrid := paybackOfNullable net savingsHybrid in

  let dfcSavings := jmul kWhBase (jdiv (jsub dfcNon dfcEH) (Fin 100)) in

  let '(crossoverTemp, crossoverNote, crossoverSeries) :=
    crossover useCopTable copText allInEH costGasPerMMBtu in

  Vars.mk kWhBase supplyC txC dfcNon dfcEH gasSupply gasDist afue heatMMBtu
    seasonalCOP gross credits gasAllIn allInNon allInEH
    baselineElec baselineGas baseline
    hpKWh hybrid hybridGasMMBtu hybridHPkWh matrix
    allElectric savingsAll savingsHybrid net paybackAll paybackHybrid
    dfcSavings costGasPerMMBtu crossoverTemp crossoverNote crossoverSeries.

(** The [return] of [calc]. *)
Definition calcReturn (v : Vars.t) : Out.t :=
  let gasHeat :=
    jmul (jdiv (jdiv (Vars.heatMMBtu v) (Fin (1 # 10))) (Vars.afue v))
      (Vars.gasAllIn v) in
  let hpHeat := jmul (Vars.hpKWh v) (Vars.allInEH v) in
  let chart :=
    [("Baseline (Gas+AC)", Math_round (Vars.baseline v));
     ("All-Electric HP", Math_round (Vars.allElectric v))]
    ++ match Vars.hybrid v with
       | Some h => [("Hybrid (cheapest)", Math_round h)]
       | None => []
       end in
  Out.mk
    (Math_round (Vars.baseline v))
    (Math_round (Vars.allElectric v))
    (option_map Math_round (Vars.hybrid v))
    (toFixed 1 (Vars.hybridGasMMBtu v))
    (Math_round (Vars.hybridHPkWh v))
    (Math_round (Vars.savingsAll v))
    (option_map Math_round (Vars.savingsHybrid v))
    (paybackOut (Vars.paybackAll v))
    (paybackOut (Vars.paybackHybrid v))
    (Math_round (Vars.dfcSavings v))
    (Math_round gasHeat)
    (Math_round hpHeat)
    (Math_round (jsub gasHeat hpHeat))
    chart
    (Vars.crossoverTemp v)
    (Vars.crossoverNote v)
    (Vars.crossoverSeries v)
    (Vars.matrix v).

Definition calc (inputs : Inputs.t) (useCopTable : bool)
    (copText binsText : string) : Out.t :=
  calcReturn (calcVars inputs useCopTable copText binsText).

(** The initial state of the component. *)
Definition defaultInputs : Inputs.t :=
  Inputs.mk "97300" "3.331" "1.767" "6.062" "2.924" "0.52" "0.2134" "0.95"
    "37.5" "2.2" "10354" "2600".

(** ** The sibling variant of the calculator with a separate cost curve *)

(** The variant of the component that returns [costCurve]: its helpers are
    those above; its crossover search starts at [tMin + 1] and pushes no
    point, and the curve is built by a loop of its own. *)
Module CostCurveVariant.

(** A point [{ t, hpCost, gasCost }] of the cost curve. *)
Record curvePoint : Type := mkCurvePoint {
  cp_t : num;
  cp_hpCost : num;
  cp_gasCost : num
}.

(** The loop [for (let t = tMin; t <= tMax; t += 1)] of the cost curve. *)
Fixpoint curveLoop (fuel : nat) (table : list coord)
    (allInEH costGasPerMMBtu tMax : num) (t : num)
    (costCurve : list curvePoint) : list curvePoint :=
  match fuel with
  | O => costCurve
  | S fuel' =>
      if jle t tMax then
        curveLoop fuel' table allInEH costGasPerMMBtu tMax (jadd t (Fin 1))
          (costCurve
           ++ [mkCurvePoint t (toFixed 2 (hpCostAt table allInEH t))
                 (toFixed 2 costGasPerMMBtu)])
      else costCurve
  end.

(** The block "Build cost curve for plotting". *)
Definition costCurve (useCopTable : bool) (copText : string)
    (allInEH costGasPerMMBtu : num) : list curvePoint :=
  if useCopTable then
    let table := parsePairs copText in
    match table with
    | first :: _ :: _ =>
        let tMin := Math_min (Fin (-20)) (cx first) in
        let tMax := Math_max (Fin 65) (cx (last table first)) in
        curveLoop (scanFuel tMin tMax) table allInEH costGasPerMMBtu tMax
          tMin []
    | _ => []
    end
  else [].

(** The loop [for (let t = tMin + 1; t <= tMax; t += 1)] of the crossover
    search: the crossover temperature if the loop breaks. *)
Fixpoint scanLoop (fuel : nat) (table : list coord)
    (allInEH costGasPerMMBtu tMax : num) (t prevT prevDiff : num)
    : option num :=
  match fuel with
  | O => None
  | S fuel' =>
      if jle t tMax then
        let diff := jsub (hpCostAt table allInEH t) costGasPerMMBtu in
        if signChange prevDiff diff then
          let frac :=
            if jlt (Math_abs (jsub diff prevDiff)) (Fin (1 # 1000000000))
            then Fin 0
            else jdiv (jsub (Fin 0) prevDiff) (jsub diff prevDiff) in
          Some (toFixed 1 (jadd prevT (jmul frac (jsub t prevT))))
        else
          scanLoop fuel' table allInEH costGasPerMMBtu tMax
            (jadd t (Fin 1)) t diff
      else None
  end.

(** The crossover block: [(crossoverTemp, crossoverNote)];
    [table[0]?.x ?? -20] is -20 on the empty table. *)
Definition crossover (useCopTable : bool) (copText : string)
    (allInEH costGasPerMMBtu : num) : option num * string :=
  if useCopTable then
    let table := parsePairs copText in
    let tMin :=
      Math_min (Fin (-20))
        (match table with first :: _ => cx first | [] => Fin (-20) end) in
    let tMax :=
      Math_max (Fin 65)
        (match table with
         | first :: _ => cx (last table first)
         | [] => Fin 65
         end) in
    let hpCost := hpCostAt table allInEH in
    let prevDiff := jsub (hpCost tMin) costGasPerMMBtu in
    match scanLoop (scanFuel (jadd tMin (Fin 1)) tMax) table allInEH
            costGasPerMMBtu tMax (jadd tMin (Fin 1)) tMin prevDiff with
    | Some temp => (Some temp, "")
    | None =>
        let diffAtMin := jsub (hpCost tMin) costGasPerMMBtu in
        let diffAtMax := jsub (hpCost tMax) costGasPerMMBtu in
        (None,
         if jlt diffAtMin (Fin 0) && jlt diffAtMax (Fin 0)
         then "HP cheaper at all temperatures in range"
         else if jgt diffAtMin (Fin 0) && jgt diffAtMax (Fin 0)
         then "Gas cheaper at all temperatures in range"
         else "Crossover outside modeled temperature range")
    end
  else
    (None, "Provide a COP table to compute a precise crossover temperature").

End CostCurveVariant.

(** ** Vocabulary of the properties *)

(** The [n] values [t], [t + 1], ... of a loop variable. *)
Fixpoint stepsFrom (t : num) (n : nat) : list num :=
  match n with
  | O => []
  | S n' => t :: stepsFrom (jadd t (Fin 1)) n'
  end.

(** [a.x <= t <= b.x], as the scan tests it. *)
Definition brackets (t : num) (a b : coord) : bool :=
  jge t (cx a) && jle t (cx b).

(** The width [b.x - a.x] of an interval, a zero width counting as 1. *)
Definition widthOr1 (a b : coord) : num :=
  if truthy (jsub (cx b) (cx a)) then jsub (cx b) (cx a) else Fin 1.

(** [a.y + (t - a.x) / (b.x - a.x) * (b.y - a.y)] *)
Definition lerp (a b : coord) (t : num) : num :=
  jadd (cy a) (jmul (jdiv (jsub t (cx a)) (widthOr1 a b)) (jsub (cy b) (cy a))).

(** No adjacent pair of [l] brackets [t]. *)
Definition noBracket (t : num) (l : list coord) : Prop :=
  forall l1 p q l2, l = l1 ++ p :: q :: l2 -> brackets t p q = false.

(** The [x] of the list are finite and non-decreasing. *)
Definition leX (a b : coord) : Prop := val (cx a) <= val (cx b).
Definition sortedX (l : list coord) : Prop := Sorted leX l.
Definition finiteX (l : list coord) : Prop :=
  Forall (fun p => isFinite (cx p) = true) l.

Definition finiteY (l : list coord) : Prop :=
  Forall (fun p => isFinite (cy p) = true) l.

(** No character of the text satisfies [f]. *)
Fixpoint noneOf (f : ascii -> bool) (s : string) : bool :=
  match s with
  | EmptyString => true
  | String c r => negb (f c) && noneOf f r
  end.

(** Every character of the text satisfies [f]. *)
Fixpoint allOf (f : ascii -> bool) (s : string) : bool :=
  match s with
  | EmptyString => true
  | String c r => f c && allOf f r
  end.

Definition isBlankOrSeparator (c : ascii) : bool :=
  isWhite c || isNewlineOrComma c.

(** The [x] of the coordinate is [k]. *)
Definition sameX (k : Q) (p : coord) : bool := Qeq_bool (val (cx p)) k.

(** The matrix row of a bin, as a function of the bin alone. *)
Definition rowOf (allInEH costGasPerMMBtu : num) (table : list coord)
    (b : coord) : matrixRow :=
  mkRow (cx b) (toFixed 2 (cy b))
    (toFixed 2 (interpCOP table (cx b)))
    (toFixed 2 (hpCostAt table allInEH (cx b)))
    (toFixed 2 costGasPerMMBtu)
    (if jle (hpCostAt table allInEH (cx b)) costGasPerMMBtu
     then "HP" else "Gas").

(** The heat of a bin, [heatMMBtu * (b.y / 100)]. *)
Definition binHeat (heatMMBtu : num) (b : coord) : num :=
  jmul heatMMBtu (jdiv (cy b) (Fin 100)).

(** The test of the dispatch, [costHPperMMBtu <= costGasPerMMBtu], at the
    temperature of a bin; the unit cost it bills. *)
Definition heatPumpBin (table : list coord) (allInEH gas : num)
    (b : coord) : bool :=
  jle (hpCostAt table allInEH (cx b)) gas.

Definition gasBin (table : list coord) (allInEH gas : num) (b : coord)
    : bool :=
  negb (heatPumpBin table allInEH gas b).

Definition billedCost (table : list coord) (allInEH gas : num)
    (b : coord) : num :=
  if heatPumpBin table allInEH gas b then hpCostAt table allInEH (cx b)
  else gas.

(** The sum of [f] over the bins, added from 0 in the order of the list. *)
Definition sumOver (f : coord -> num) (l : list coord) : num :=
  fold_left (fun s b => jadd s (f b)) l (Fin 0).

(** The cost difference [hp - gas] at a point of the series. *)
Definition diffOf (p : seriesPoint) : num := jsub (pt_hp p) (pt_gas p).

(** No point of the list changes the sign of the difference against the
    point before it, [prevDiff] being the difference before the first. *)
Fixpoint changeFree (prevDiff : num) (l : list seriesPoint) : bool :=
  match l with
  | [] => true
  | p :: l' =>
      negb (signChange prevDiff (diffOf p)) && changeFree (diffOf p) l'
  end.

(** The temperature interpolated at a change of sign,
    [prevT + frac * (t - prevT)] rounded to one decimal. *)
Definition crossingAt (prevT prevDiff t diff : num) : num :=
  let frac :=
    if jlt (Math_abs (jsub diff prevDiff)) (Fin (1 # 1000000000))
    then Fin 0
    else jdiv (jsub (Fin 0) prevDiff) (jsub diff prevDiff) in
  toFixed 1 (jadd prevT (jmul frac (jsub t prevT))).

(** The character is an ASCII character. *)
Definition isAscii (c : ascii) : bool := (code c <? 128)%Z.

(** The text starts, ends, with a white-space character. *)
Definition startsWhite (s : string) : bool :=
  match s with
  | String c _ => isWhite c
  | EmptyString => false
  end.

Fixpoint endsWhite (s : string) : bool :=
  match s with
  | EmptyString => false
  | String c EmptyString => isWhite c
  | String _ r => endsWhite r
  end.

(** ** Properties: numbers *)

Lemma jle_Fin (p q : Q) : jle (Fin p) (Fin q) = true <-> p <= q.
Proof.
  unfold jle, jcmp. rewrite Qle_alt.
  destruct (p ?= q); split; intros; congruence.
Qed.

Lemma jle_Fin_false (p q : Q) : jle (Fin p) (Fin q) = false <-> q < p.
Proof.
  unfold jle, jcmp. rewrite Qgt_alt.
  destruct (p ?= q); split; intros; congruence.
Qed.

Lemma jlt_Fin (p q : Q) : jlt (Fin p) (Fin q) = true <-> p < q.
Proof.
  unfold jlt, jcmp. rewrite Qlt_alt.
  destruct (p ?= q); split; intros; congruence.
Qed.

Lemma truthy_Fin (q : Q) : truthy (Fin q) = true <-> ~ q == 0.
Proof.
  simpl. rewrite negb_true_iff. split.
  - intros H E. apply Qeq_bool_iff in E. congruence.
  - intros H. apply not_true_is_false. intro E. apply H, Qeq_bool_iff, E.
Qed.


Lemma jadd_Fin (p q : Q) : jadd (Fin p) (Fin q) = Fin (p + q).
Proof. reflexivity. Qed.

Lemma jsub_Fin (p q : Q) : jsub (Fin p) (Fin q) = Fin (p - q).
Proof. reflexivity. Qed.

Lemma jmul_Fin (p q : Q) : jmul (Fin p) (Fin q) = Fin (p * q).
Proof. reflexivity. Qed.

Lemma jdiv_Fin_100 (p : Q) : jdiv (Fin p) (Fin 100) = Fin (p / 100).
Proof. reflexivity. Qed.

Create Rewrite HintDb fin_arith.
#[local] Hint Rewrite jadd_Fin jsub_Fin jmul_Fin jdiv_Fin_100 : fin_arith.

Lemma isFinite_Fin (a : num) : isFinite a = true -> a = Fin (val a).
Proof. destruct a; simpl; congruence. Qed.

(** ** Properties: the pair parser *)

Lemma trimEnd_cons (c : ascii) (r : string) :
  trimEnd (String c r)
  = match trimEnd r with
    | EmptyString => if isWhite c then EmptyString else String c EmptyString
    | r' => String c r'
    end.
Proof. reflexivity. Qed.

Lemma trimEnd_idem (s : string) : trimEnd (trimEnd s) = trimEnd s.
Proof.
  induction s as [|c r IH]; [reflexivity|].
  rewrite (trimEnd_cons c r).
  destruct (trimEnd r) as [|c' r'] eqn:E.
  - destruct (isWhite c) eqn:W; [reflexivity|].
    rewrite trimEnd_cons. simpl. rewrite W. reflexivity.
  - rewrite trimEnd_cons, IH. reflexivity.
Qed.

Lemma trimEnd_head (c : ascii) (r : string) :
  isWhite c = false -> exists r', trimEnd (String c r) = String c r'.
Proof.
  intro W. simpl. destruct (trimEnd r) as [|c' r'].
  - rewrite W. eexists; reflexivity.
  - eexists; reflexivity.
Qed.

Lemma trimStart_head (s : string) :
  trimStart s = EmptyString
  \/ exists c r, trimStart s = String c r /\ isWhite c = false.
Proof.
  induction s as [|c r IH]; [left; reflexivity|].
  simpl. destruct (isWhite c) eqn:W; [exact IH|].
  right. exists c, r. split; [reflexivity|exact W].
Qed.

Lemma trim_idem (s : string) : trim (trim s) = trim s.
Proof.
  unfold trim. destruct (trimStart_head s) as [E|(c & r & E & W)].
  - rewrite E. reflexivity.
  - rewrite E. destruct (trimEnd_head c r W) as (r' & E').
    rewrite E'. simpl trimStart. rewrite W. rewrite <- E'.
    apply trimEnd_idem.
Qed.

(** [Number] ignores the white space around its argument. *)
Lemma Number_trim (s : string) : Number (trim s) = Number s.
Proof. unfold Number. rewrite trim_idem. reflexivity. Qed.

Lemma splitBy_not_nil (sep : ascii -> bool) (s : string) :
  splitBy sep s <> [].
Proof.
  destruct s as [|c r]; simpl; [discriminate|].
  destruct (sep c); [discriminate|].
  destruct (splitBy sep r); discriminate.
Qed.

Lemma splitBy_none (sep : ascii -> bool) (s : string) :
  noneOf sep s = true -> splitBy sep s = [s].
Proof.
  induction s as [|c r IH]; [reflexivity|].
  simpl. intro H. apply andb_true_iff in H. destruct H as [Hc Hr].
  apply negb_true_iff in Hc. rewrite Hc, (IH Hr). reflexivity.
Qed.

Lemma splitBy_app (sep : ascii -> bool) (a : string) (c : ascii)
    (rest : string) :
  noneOf sep a = true -> sep c = true ->
  splitBy sep (a ++ String c rest)%string = a :: splitBy sep rest.
Proof.
  intros Ha Hc. induction a as [|x a IH]; simpl.
  - rewrite Hc. reflexivity.
  - simpl in Ha. apply andb_true_iff in Ha. destruct Ha as [Hx Ha].
    apply negb_true_iff in Hx. rewrite Hx, (IH Ha). reflexivity.
Qed.

(** The pieces of a split hold no separator. *)
Lemma splitBy_pieces (sep : ascii -> bool) (s : string) :
  Forall (fun piece => noneOf sep piece = true) (splitBy sep s).
Proof.
  induction s as [|c r IH]; simpl.
  - repeat constructor.
  - destruct (sep c) eqn:E.
    + constructor; [reflexivity|exact IH].
    + destruct (splitBy sep r) as [|piece more].
      * repeat constructor. simpl. rewrite E. reflexivity.
      * inversion IH; subst. constructor; [|assumption].
        simpl. rewrite E. assumption.
Qed.

Lemma noneOf_trimStart (f : ascii -> bool) (s : string) :
  noneOf f s = true -> noneOf f (trimStart s) = true.
Proof.
  induction s as [|c r IH]; [reflexivity|].
  intro H. simpl. destruct (isWhite c); [|exact H].
  simpl in H. apply andb_true_iff in H. apply IH, H.
Qed.

Lemma noneOf_trimEnd (f : ascii -> bool) (s : string) :
  noneOf f s = true -> noneOf f (trimEnd s) = true.
Proof.
  induction s as [|c r IH]; [reflexivity|].
  intro H. simpl in H. apply andb_true_iff in H. destruct H as [Hc Hr].
  specialize (IH Hr). simpl. destruct (trimEnd r) as [|c' r'].
  - destruct (isWhite c); [reflexivity|]. simpl. rewrite Hc. reflexivity.
  - simpl. simpl in IH. rewrite Hc, IH. reflexivity.
Qed.

(** Every entry of a text is trimmed, not empty, and holds no newline and
    no comma. *)
Lemma entries_spec (text : string) :
  Forall (fun e => trim e = e /\ nonEmpty e = true
                   /\ noneOf isNewlineOrComma e = true) (entries text).
Proof.
  unfold entries. apply Forall_forall. intros e He.
  apply filter_In in He. destruct He as [He Hne].
  apply in_map_iff in He. destruct He as (piece & E & Hp).
  subst e. repeat split.
  - apply trim_idem.
  - exact Hne.
  - apply noneOf_trimEnd, noneOf_trimStart.
    pose proof (splitBy_pieces isNewlineOrComma text) as H.
    rewrite Forall_forall in H. apply H, Hp.
Qed.

(** An entry is split on every colon and its first two pieces are read. *)
Lemma pairOf_pieces (pair : string) :
  exists p0 more,
    splitBy isColon pair = p0 :: more
    /\ pairOf pair = mkCoord (Number p0) (NumberOpt (hd_error more)).
Proof.
  unfold pairOf. destruct (splitBy isColon pair) as [|p0 more] eqn:E.
  - exfalso. exact (splitBy_not_nil _ _ E).
  - exists p0, more. split; [reflexivity|].
    simpl. rewrite Number_trim. destruct more as [|p1 more']; simpl.
    + reflexivity.
    + rewrite Number_trim. reflexivity.
Qed.

(** An entry without a colon has no second piece: its [y] is [NaN]. *)
Lemma pairOf_no_colon (e : string) :
  noneOf isColon e = true -> pairOf e = mkCoord (Number e) NaN.
Proof.
  intro H. unfold pairOf. rewrite (splitBy_none _ _ H).
  simpl. rewrite Number_trim. reflexivity.
Qed.

(** What follows a second colon is not read. *)
Lemma pairOf_second_colon (a b rest : string) :
  noneOf isColon a = true -> noneOf isColon b = true ->
  pairOf (a ++ String ":" (b ++ String ":" rest))%string
  = mkCoord (Number a) (Number b).
Proof.
  intros Ha Hb. unfold pairOf.
  rewrite (splitBy_app isColon a ":" _ Ha eq_refl).
  rewrite (splitBy_app isColon b ":" _ Hb eq_refl).
  simpl. rewrite !Number_trim. reflexivity.
Qed.

Lemma insertByX_perm (p : coord) (l : list coord) :
  Permutation (insertByX p l) (p :: l).
Proof.
  induction l as [|q l IH]; simpl; [reflexivity|].
  destruct (jgt _ _); [|reflexivity].
  rewrite IH. apply perm_swap.
Qed.

Lemma sortByX_perm (l : list coord) : Permutation (sortByX l) l.
Proof.
  induction l as [|p l IH]; simpl; [reflexivity|].
  rewrite insertByX_perm. constructor. exact IH.
Qed.

Lemma jgt_diff_Fin (a b : Q) :
  jgt (jsub (Fin a) (Fin b)) (Fin 0) = true <-> b < a.
Proof.
  unfold jgt. simpl jsub. rewrite jlt_Fin. split; intro; lra.
Qed.

Lemma insertByX_hd (q p : coord) (l : list coord) :
  HdRel leX q l -> leX q p -> HdRel leX q (insertByX p l).
Proof.
  intros Hl Hp. destruct l as [|x l]; simpl.
  - constructor. exact Hp.
  - destruct (jgt _ _); constructor.
    + inversion Hl; assumption.
    + exact Hp.
Qed.

Lemma insertByX_sorted (p : coord) (l : list coord) :
  isFinite (cx p) = true -> finiteX l -> sortedX l ->
  sortedX (insertByX p l).
Proof.
  intros Hp. induction l as [|q l IH]; intros Hf Hs; simpl.
  - repeat constructor.
  - inversion Hf as [|? ? Hq Hf']; subst.
    inversion Hs as [|? ? Hs' Hhd]; subst.
    destruct (cx p) as [a| | |] eqn:Ea; try discriminate.
    destruct (cx q) as [b| | |] eqn:Eb; try discriminate.
    destruct (jgt (jsub (Fin a) (Fin b)) (Fin 0)) eqn:E.
    + apply jgt_diff_Fin in E. constructor.
      * apply IH; assumption.
      * apply insertByX_hd; [exact Hhd|].
        unfold leX. rewrite Ea, Eb. simpl. lra.
    + constructor; [exact Hs|]. constructor.
      unfold leX. rewrite Ea, Eb. simpl.
      destruct (Qlt_le_dec b a) as [H|H]; [|exact H].
      apply jgt_diff_Fin in H. congruence.
Qed.

Lemma sortByX_sorted (l : list coord) :
  finiteX l -> sortedX (sortByX l).
Proof.
  induction l as [|p l IH]; intro Hf; simpl.
  - constructor.
  - inversion Hf; subst. apply insertByX_sorted.
    + assumption.
    + unfold finiteX. rewrite (sortByX_perm l). assumption.
    + apply IH. assumption.
Qed.

Lemma parsePairs_finite (text : string) :
  Forall (fun p => finiteCoord p = true) (parsePairs text).
Proof.
  unfold parsePairs. rewrite sortByX_perm.
  apply Forall_forall. intros p Hp. apply filter_In in Hp. apply Hp.
Qed.

Lemma parsePairs_finiteX (text : string) : finiteX (parsePairs text).
Proof.
  eapply Forall_impl; [|apply parsePairs_finite].
  intros p H. apply andb_true_iff in H. apply H.
Qed.

Lemma trimStart_white_app (l x : string) :
  allOf isWhite l = true -> trimStart (l ++ x) = trimStart x.
Proof.
  induction l as [|c l IH]; intro H; [reflexivity|].
  simpl in H. apply andb_true_iff in H. destruct H as [Hc Hl].
  simpl. rewrite Hc. apply IH, Hl.
Qed.

Lemma trimStart_blank (s : string) :
  allOf isWhite s = true -> trimStart s = EmptyString.
Proof.
  induction s as [|c r IH]; [reflexivity|].
  simpl. intro H. apply andb_true_iff in H. destruct H as [Hc Hr].
  rewrite Hc. apply IH, Hr.
Qed.

Lemma trimEnd_white (r : string) :
  allOf isWhite r = true -> trimEnd r = EmptyString.
Proof.
  induction r as [|c r IH]; intro H; [reflexivity|].
  simpl in H. apply andb_true_iff in H. destruct H as [Hc Hr].
  simpl. rewrite (IH Hr), Hc. reflexivity.
Qed.

Lemma trimEnd_app_white (s r : string) :
  nonEmpty s = true -> endsWhite s = false -> allOf isWhite r = true ->
  trimEnd (s ++ r) = s.
Proof.
  intros Hne He Hr. induction s as [|c s IH]; [discriminate|].
  destruct s as [|c' s'].
  - simpl in He. simpl. rewrite (trimEnd_white r Hr), He. reflexivity.
  - change (String c (String c' s') ++ r)%string
      with (String c (String c' s' ++ r)).
    rewrite trimEnd_cons, IH; [reflexivity|reflexivity|exact He].
Qed.

(** [trim] removes the white space at both ends of a text, and nothing
    else. *)
Lemma trim_spec (l s r : string) :
  allOf isWhite l = true -> allOf isWhite r = true ->
  startsWhite s = false -> endsWhite s = false ->
  trim (l ++ s ++ r) = s.
Proof.
  intros Hl Hr Hs He. unfold trim. rewrite (trimStart_white_app l _ Hl).
  destruct s as [|c s].
  - simpl. rewrite (trimStart_blank r Hr). reflexivity.
  - simpl in Hs. simpl trimStart. rewrite Hs.
    apply (trimEnd_app_white (String c s) r); [reflexivity|exact He|exact Hr].
Qed.

(** A text is split at every separator. *)
Lemma splitBy_at (sep : ascii -> bool) (a : string) (c : ascii)
    (rest : string) :
  sep c = true ->
  splitBy sep (a ++ String c rest) = splitBy sep a ++ splitBy sep rest.
Proof.
  intro Hc. induction a as [|x a IH]; simpl.
  - rewrite Hc. reflexivity.
  - rewrite IH. destruct (sep x); [reflexivity|].
    destruct (splitBy sep a) as [|piece more] eqn:E; [|reflexivity].
    exfalso. exact (splitBy_not_nil _ _ E).
Qed.

(** The entries of a text without newline and comma, and of a text cut at
    a newline or a comma. *)
Lemma entries_one (s : string) :
  noneOf isNewlineOrComma s = true ->
  entries s = if nonEmpty (trim s) then [trim s] else [].
Proof.
  intro H. unfold entries. rewrite (splitBy_none _ _ H). reflexivity.
Qed.

Lemma entries_cut (a : string) (c : ascii) (rest : string) :
  isNewlineOrComma c = true ->
  entries (a ++ String c rest) = entries a ++ entries rest.
Proof.
  intro H. unfold entries.
  rewrite (splitBy_at _ a c rest H), map_app, filter_app. reflexivity.
Qed.

(** An entry with one colon is read as the numbers on its two sides. *)
Lemma pairOf_one_colon (a b : string) :
  noneOf isColon a = true -> noneOf isColon b = true ->
  pairOf (a ++ String ":" b) = mkCoord (Number a) (Number b).
Proof.
  intros Ha Hb. unfold pairOf.
  rewrite (splitBy_app isColon a ":" _ Ha eq_refl), (splitBy_none _ _ Hb).
  simpl. rewrite !Number_trim. reflexivity.
Qed.

(** C4, as amended: the pair parser is a total function of the text.  The
    text is cut at every newline and every comma, and every piece between
    two cuts gives, trimmed of the white space at its ends, one entry,
    unless it is empty once trimmed (of an ASCII text, trimming removes
    the white space at both ends and nothing else); each entry is split on
    every colon and
    its first two pieces are read as numbers (what follows a second colon
    is not read: ["1:2:3"] is read as (1, 2); the second number of an entry
    without a colon is [NaN]); the result holds the coordinates of the
    entries whose two numbers are finite, each as often as it occurs, in
    non-decreasing order of [x]. *)
Theorem parsePairs_spec (text : string) :
  Forall (fun e => trim e = e /\ nonEmpty e = true
                   /\ noneOf isNewlineOrComma e = true) (entries text)
  /\ (forall e, exists p0 more,
        splitBy isColon e = p0 :: more
        /\ pairOf e = mkCoord (Number p0) (NumberOpt (hd_error more)))
  /\ (forall e, noneOf isColon e = true -> pairOf e = mkCoord (Number e) NaN)
  /\ (forall a b rest,
        noneOf isColon a = true -> noneOf isColon b = true ->
        pairOf (a ++ String ":" (b ++ String ":" rest))%string
        = mkCoord (Number a) (Number b))
  /\ Permutation (parsePairs text)
       (filter finiteCoord (map pairOf (entries text)))
  /\ Forall (fun p => finiteCoord p = true) (parsePairs text)
  /\ sortedX (parsePairs text)
  /\ (noneOf isNewlineOrComma text = true ->
      entries text = if nonEmpty (trim text) then [trim text] else [])
  /\ (forall a c rest,
        text = (a ++ String c rest)%string -> isNewlineOrComma c = true ->
        entries text = entries a ++ entries rest)
  /\ (forall l s r,
        text = (l ++ s ++ r)%string ->
        allOf isWhite l = true -> allOf isWhite r = true ->
        allOf isAscii s = true ->
        startsWhite s = false -> endsWhite s = false ->
        trim text = s)
  /\ (forall a b,
        noneOf isColon a = true -> noneOf isColon b = true ->
        pairOf (a ++ String ":" b)%string = mkCoord (Number a) (Number b))
  /\ parsePairs text = sortByX (filter finiteCoord (map pairOf (entries text))).
Proof.
  split; [apply entries_spec|].
  split; [apply pairOf_pieces|].
  split; [apply pairOf_no_colon|].
  split; [apply pairOf_second_colon|].
  split; [apply sortByX_perm|].
  split; [apply parsePairs_finite|].
  split.
  { unfold parsePairs. apply sortByX_sorted.
    apply Forall_forall. intros p Hp. apply filter_In in Hp.
    destruct Hp as [_ Hp]. apply andb_true_iff in Hp. apply Hp. }
  split; [apply entries_one|].
  split; [intros a c rest ->; apply entries_cut|].
  split; [intros l s r -> Hl Hr _; apply trim_spec; assumption|].
  split; [apply pairOf_one_colon|reflexivity].
Qed.

Lemma parsePairs_spec_witness :
  pairOf "1:2:3" = mkCoord (Number "1") (Number "2")
  /\ sortedX (parsePairs "3:4, 1:2:3, x:1")
  /\ entries "3:4, 1:2:3" = ["3:4"; "1:2:3"]
  /\ trim " 1:2:3" = "1:2:3"
  /\ parsePairs "3:4, 1:2:3, x:1"
     = [mkCoord (Fin 1) (Fin 2); mkCoord (Fin 3) (Fin 4)].
Proof.
  pose proof (parsePairs_spec "3:4, 1:2:3, x:1") as H.
  destruct H as (_ & _ & _ & Hcolon & _ & _ & Hsorted & _ & _ & _ & _ & Eparse).
  split; [|split; [exact Hsorted|split; [|split]]];
    [| | |rewrite Eparse; vm_compute; reflexivity].
  - apply (Hcolon "1" "2" "3"); reflexivity.
  - pose proof (parsePairs_spec "3:4, 1:2:3") as H.
    destruct H as (_ & _ & _ & _ & _ & _ & _ & _ & Hcut & _).
    rewrite (Hcut "3:4" ","%char " 1:2:3" eq_refl eq_refl).
    pose proof (parsePairs_spec "3:4") as H1.
    destruct H1 as (_ & _ & _ & _ & _ & _ & _ & Hone & _ & Htrim & _).
    rewrite (Hone eq_refl).
    rewrite (Htrim "" "3:4" "" eq_refl eq_refl eq_refl eq_refl eq_refl
               eq_refl).
    pose proof (parsePairs_spec " 1:2:3") as H2.
    destruct H2 as (_ & _ & _ & _ & _ & _ & _ & Hone2 & _ & Htrim2 & _).
    rewrite (Hone2 eq_refl).
    rewrite (Htrim2 " " "1:2:3" "" eq_refl eq_refl eq_refl eq_refl eq_refl
               eq_refl).
    reflexivity.
  - pose proof (parsePairs_spec " 1:2:3") as H2.
    destruct H2 as (_ & _ & _ & _ & _ & _ & _ & _ & _ & Htrim2 & _).
    apply (Htrim2 " " "1:2:3" "" eq_refl eq_refl eq_refl eq_refl eq_refl
             eq_refl).
Defined.

(** C4 as stated fails: the entry ["1:2:3"] is split on both colons and is
    kept as the coordinate (1, 2); it is not discarded, although the text
    ["2:3"] after its first colon is not a number. *)
Lemma parsePairs_second_colon_counterexample :
  Number "2:3" = NaN
  /\ parsePairs "1:2:3" = [mkCoord (Fin 1) (Fin 2)]
  /\ parsePairs "1:2:3" <> [].
Proof.
  assert (E : parsePairs "1:2:3" = [mkCoord (Fin 1) (Fin 2)])
    by (vm_compute; reflexivity).
  rewrite E. repeat split; discriminate.
Qed.

(** ** Properties: the COP interpolator *)

Lemma scanPairs_first (t dflt : num) (pre : list coord) :
  forall a b post,
    noBracket t (pre ++ [a]) ->
    brackets t a b = true ->
    scanPairs (pre ++ a :: b :: post) t dflt = lerp a b t.
Proof.
  induction pre as [|p pre IH]; intros a b post Hno Hbr.
  - simpl. unfold brackets in Hbr. rewrite Hbr.
    unfold lerp, widthOr1, jor. reflexivity.
  - assert (Hrest : noBracket t (pre ++ [a])).
    { intros l1 x y l2 E. apply (Hno (p :: l1) x y l2).
      simpl. rewrite E. reflexivity. }
    specialize (IH a b post Hrest Hbr).
    destruct pre as [|q pre].
    + simpl in *.
      assert (Hpa : brackets t p a = false)
        by (apply (Hno [] p a []); reflexivity).
      unfold brackets in Hpa. rewrite Hpa. exact IH.
    + change ((p :: q :: pre) ++ a :: b :: post)
        with (p :: q :: (pre ++ a :: b :: post)).
      assert (Hpq : brackets t p q = false)
        by (apply (Hno [] p q (pre ++ [a])); reflexivity).
      cbn [scanPairs]. unfold brackets in Hpq. rewrite Hpq. exact IH.
Qed.

Lemma last_cons_cons {A : Type} (a b d : A) (l : list A) :
  last (a :: b :: l) d = last (b :: l) d.
Proof. reflexivity. Qed.

Lemma last_indep {A : Type} (l : list A) (a d d' : A) :
  last (a :: l) d = last (a :: l) d'.
Proof.
  revert a. induction l as [|b l IH]; intro a; [reflexivity|].
  rewrite !last_cons_cons. apply IH.
Qed.

(** In a table with finite non-decreasing [x], a query strictly between the
    first and the last [x] has a first bracketing pair, and that pair has a
    non-zero width. *)
Lemma sorted_first_bracket (t : Q) :
  forall (first : coord) (rest : list coord),
    sortedX (first :: rest) -> finiteX (first :: rest) ->
    val (cx first) < t ->
    t < val (cx (last (first :: rest) first)) ->
    exists pre a b post,
      first :: rest = pre ++ a :: b :: post
      /\ noBracket (Fin t) (pre ++ [a])
      /\ brackets (Fin t) a b = true
      /\ truthy (jsub (cx b) (cx a)) = true.
Proof.
  intros first rest. revert first.
  induction rest as [|b rest IH]; intros a Hs Hf Hlo Hhi.
  - simpl in Hhi. lra.
  - assert (Hfa : isFinite (cx a) = true) by (inversion Hf; assumption).
    assert (Hfb : isFinite (cx b) = true)
      by (inversion Hf as [|? ? ? Hf']; inversion Hf'; assumption).
    pose proof (isFinite_Fin _ Hfa) as Ea.
    pose proof (isFinite_Fin _ Hfb) as Eb.
    destruct (Qlt_le_dec (val (cx b)) t) as [Hb|Hb].
    + destruct (IH b) as (pre & a' & b' & post & E & Hno & Hbr & Hw).
      * inversion Hs; assumption.
      * inversion Hf; assumption.
      * exact Hb.
      * rewrite last_cons_cons in Hhi.
        rewrite (last_indep rest b b a). exact Hhi.
      * exists (a :: pre), a', b', post. repeat split; try assumption.
        -- simpl. rewrite E. reflexivity.
        -- intros l1 p q l2 E2.
           destruct l1 as [|x l1].
           ++ simpl in E2.
              assert (p = a) by congruence. subst p.
              assert (q = b).
              { destruct pre; simpl in E, E2; congruence. }
              subst q. unfold brackets.
              rewrite Ea, Eb. apply andb_false_iff. right.
              apply jle_Fin_false. exact Hb.
           ++ apply (Hno l1 p q l2). simpl in E2. congruence.
    + exists [], a, b, rest. repeat split.
      * intros l1 p q l2 E. destruct l1 as [|x [|y l1]]; discriminate.
      * unfold brackets, jge. rewrite Ea, Eb. apply andb_true_iff.
        split; apply jle_Fin; lra.
      * rewrite Ea, Eb. simpl jsub. apply truthy_Fin. lra.
Qed.

Lemma interpCOP_cons (first : coord) (rest : list coord) (t : num) :
  interpCOP (first :: rest) t =
  if jle t (cx first) then cy first
  else if jge t (cx (last (first :: rest) first))
       then cy (last (first :: rest) first)
       else scanPairs (first :: rest) t (cy (last (first :: rest) first)).
Proof. reflexivity. Qed.

(** C10: on a table of exactly one entry the interpolator is the constant
    function of that entry's [y]: whatever the query, each of the three
    exits of the function returns the [y] of the only entry; and for a
    finite query and a finite [x] one of the two flat-extrapolation tests
    holds, so that the scan of the pairs is not reached. *)
Theorem interpCOP_singleton (p : coord) (t : num) :
  interpCOP [p] t = cy p
  /\ (isFinite t = true -> isFinite (cx p) = true ->
      jle t (cx p) = true \/ jge t (cx p) = true).
Proof.
  split.
  - unfold interpCOP. simpl.
    destruct (jle t (cx p)); [reflexivity|].
    destruct (jge t (cx p)); reflexivity.
  - intros Ht Hx.
    rewrite (isFinite_Fin _ Ht), (isFinite_Fin _ Hx). unfold jge.
    destruct (Qlt_le_dec (val (cx p)) (val t)) as [H|H].
    + right. apply jle_Fin. lra.
    + left. apply jle_Fin. exact H.
Qed.

Lemma interpCOP_singleton_witness :
  interpCOP [mkCoord (Fin 40) (Fin 3)] (Fin 17) = Fin 3
  /\ (jle (Fin 17) (Fin 40) = true \/ jge (Fin 17) (Fin 40) = true).
Proof.
  destruct (interpCOP_singleton (mkCoord (Fin 40) (Fin 3)) (Fin 17))
    as [Hy Hbranch].
  split; [exact Hy|]. apply Hbranch; reflexivity.
Defined.

(** C5, as amended: the interpolator returns 2.2 on the empty table; the
    first sample's [y] when [t] is at most the first [x]; the last sample's
    [y] when [t] is at least the last [x] and above the first [x] (the test
    on the first sample is made first); otherwise the linear interpolation
    [a.y + (t - a.x) / (b.x - a.x) * (b.y - a.y)], a zero width counting as
    1, over the first adjacent pair bracketing [t].  On a table of finite
    non-decreasing [x] such a pair exists for every finite [t] strictly
    between the first and the last [x], and its width is not zero. *)
Theorem interpCOP_cases (t : num) :
  interpCOP [] t = Fin (22 # 10)
  /\ forall (first : coord) (rest : list coord),
       let table := first :: rest in
       let lst := last table first in
       (jle t (cx first) = true -> interpCOP table t = cy first)
       /\ (jle t (cx first) = false -> jge t (cx lst) = true ->
           interpCOP table t = cy lst)
       /\ (jle t (cx first) = false -> jge t (cx lst) = false ->
           forall pre a b post,
             table = pre ++ a :: b :: post ->
             noBracket t (pre ++ [a]) ->
             brackets t a b = true ->
             interpCOP table t = lerp a b t)
       /\ (sortedX table -> finiteX table -> isFinite t = true ->
           jle t (cx first) = false -> jge t (cx lst) = false ->
           exists pre a b post,
             table = pre ++ a :: b :: post
             /\ noBracket t (pre ++ [a])
             /\ brackets t a b = true
             /\ widthOr1 a b = jsub (cx b) (cx a)
             /\ interpCOP table t = lerp a b t).
Proof.
  split; [reflexivity|].
  intros first rest table lst. subst table lst.
  set (lst := last (first :: rest) first).
  assert (Hscan : jle t (cx first) = false -> jge t (cx lst) = false ->
           forall pre a b post,
             first :: rest = pre ++ a :: b :: post ->
             noBracket t (pre ++ [a]) ->
             brackets t a b = true ->
             interpCOP (first :: rest) t = lerp a b t).
  { intros H1 H2 pre a b post E Hno Hbr.
    rewrite interpCOP_cons. fold lst. rewrite H1, H2, E.
    apply scanPairs_first; assumption. }
  repeat split.
  - intro H. rewrite interpCOP_cons, H. reflexivity.
  - intros H1 H2. rewrite interpCOP_cons. fold lst.
    rewrite H1, H2. reflexivity.
  - exact Hscan.
  - intros Hs Hf Ht H1 H2.
    assert (Hff : isFinite (cx first) = true) by (inversion Hf; assumption).
    assert (Hfl : isFinite (cx lst) = true).
    { unfold lst. clear - Hf.
      revert first Hf. induction rest as [|b rest IH]; intros a Hf.
      - inversion Hf; assumption.
      - rewrite last_cons_cons, (last_indep rest b a b).
        apply IH. inversion Hf; assumption. }
    pose proof H1 as H1'. pose proof H2 as H2'.
    rewrite (isFinite_Fin _ Ht), (isFinite_Fin _ Hff) in H1'.
    apply jle_Fin_false in H1'.
    unfold jge in H2'.
    rewrite (isFinite_Fin _ Ht), (isFinite_Fin _ Hfl) in H2'.
    apply jle_Fin_false in H2'.
    destruct (sorted_first_bracket (val t) first rest Hs Hf H1' H2')
      as (pre & a & b & post & E & Hno & Hbr & Hw).
    rewrite <- (isFinite_Fin _ Ht) in Hno, Hbr.
    exists pre, a, b, post. repeat split; try assumption.
    + unfold widthOr1. rewrite Hw. reflexivity.
    + apply (Hscan H1 H2 pre a b post); assumption.
Qed.

Lemma interpCOP_cases_witness :
  let a := mkCoord (Fin 0) (Fin 1) in
  let b := mkCoord (Fin 10) (Fin 2) in
  interpCOP [] (Fin 7) = Fin (22 # 10)
  /\ interpCOP [a; b] (Fin (-5)) = Fin 1
  /\ interpCOP [a; b] (Fin 20) = Fin 2
  /\ interpCOP [a; b] (Fin (5 # 2)) = lerp a b (Fin (5 # 2)).
Proof.
  intros a b.
  split; [exact (proj1 (interpCOP_cases (Fin 7)))|].
  split; [|split].
  - apply (proj1 (proj2 (interpCOP_cases (Fin (-5))) a [b])). reflexivity.
  - apply (proj1 (proj2 (proj2 (interpCOP_cases (Fin 20)) a [b])));
      reflexivity.
  - apply (proj1 (proj2 (proj2 (proj2 (interpCOP_cases (Fin (5 # 2)))
                                   a [b]))) eq_refl eq_refl [] a b []).
    + reflexivity.
    + intros l1 p q l2 E. destruct l1 as [|x [|y l1]]; discriminate.
    + reflexivity.
Defined.

(** C5 as stated fails on a table whose [x] are all equal: the table of
    ["5:1,5:2"] is sorted and [t = 5] is at least the last [x], yet the
    interpolator returns the first [y], not the last. *)
Lemma interpCOP_upper_bound_counterexample :
  let table := parsePairs "5:1,5:2" in
  let lst := last table (mkCoord NaN NaN) in
  table = [mkCoord (Fin 5) (Fin 1); mkCoord (Fin 5) (Fin 2)]
  /\ sortedX table
  /\ jge (Fin 5) (cx lst) = true
  /\ cy lst = Fin 2
  /\ interpCOP table (Fin 5) = Fin 1
  /\ interpCOP table (Fin 5) <> cy lst.
Proof.
  cbv zeta.
  assert (E : parsePairs "5:1,5:2"
              = [mkCoord (Fin 5) (Fin 1); mkCoord (Fin 5) (Fin 2)])
    by (vm_compute; reflexivity).
  rewrite E. repeat split.
  - repeat constructor. unfold leX. simpl. lra.
  - discriminate.
Qed.

(** ** Properties: the bin normalizer *)

Lemma Forall2_map_right {A B : Type} (R : A -> B -> Prop) (f : A -> B)
    (l : list A) :
  (forall a, R a (f a)) -> Forall2 R l (map f l).
Proof.
  intro H. induction l as [|a l IH]; simpl; constructor; [apply H|exact IH].
Qed.

(** The sum of the weights is taken from 0, from left to right. *)
Lemma sumY_snoc (bins : list coord) (r : coord) :
  sumY (bins ++ [r]) = jadd (sumY bins) (cy r).
Proof. unfold sumY. rewrite fold_left_app. reflexivity. Qed.

Lemma times100_over_1 (y : num) :
  num_eq (jdiv (jmul y (Fin 100)) (Fin 1)) (jmul y (Fin 100)).
Proof. destruct y as [q| | |]; simpl; try exact I. field. Qed.

(** C6, as amended: the normalizer keeps every [x] and replaces every
    weight [y] by [(y * 100) / d], with one divisor [d] for the whole list,
    so that the weights keep their proportions: [d] is the sum of the
    weights, added from 0 in the order of the list, when that sum is not
    zero, and 1 when it is zero (or [NaN]); with a zero sum every new
    weight is 100 times the old one (0 for a weight 0), and never [NaN]
    when the weights are finite. *)
Theorem normalizeBins_spec (bins : list coord) :
  let out := normalizeBins bins in
  let total := sumY bins in
  map cx out = map cx bins
  /\ (truthy total = true ->
      Forall2 (fun r o => cy o = jdiv (jmul (cy r) (Fin 100)) total)
        bins out)
  /\ (truthy total = false ->
      Forall2 (fun r o =>
                 cy o = jdiv (jmul (cy r) (Fin 100)) (Fin 1)
                 /\ num_eq (cy o) (jmul (cy r) (Fin 100)))
        bins out)
  /\ (truthy total = false -> finiteY bins ->
      Forall (fun o => cy o <> NaN) out)
  /\ (forall q, total = Fin q -> (truthy total = false <-> q == 0))
  /\ sumY [] = Fin 0
  /\ (forall front r,
        bins = front ++ [r] -> total = jadd (sumY front) (cy r)).
Proof.
  intros out total. subst out total. unfold normalizeBins, jor.
  split; [rewrite map_map; reflexivity|].
  split.
  { intro Ht. rewrite Ht. apply Forall2_map_right. reflexivity. }
  split.
  { intro Ht. rewrite Ht. apply Forall2_map_right. intro r.
    cbn [cy]. split; [reflexivity|apply times100_over_1]. }
  split.
  { intros Ht Hf. rewrite Ht. apply Forall_map.
    eapply Forall_impl; [|exact Hf]. intros r Hr. cbv beta in Hr.
    cbn [cy]. destruct (cy r) as [y| | |]; try discriminate Hr.
    simpl. discriminate. }
  split.
  { intros q E. rewrite E. split.
    - intro Ht. destruct (Qeq_dec q 0) as [H0|H0]; [exact H0|].
      apply truthy_Fin in H0. congruence.
    - intro H0. destruct (truthy (Fin q)) eqn:Ht; [|reflexivity].
      apply truthy_Fin in Ht. contradiction. }
  split; [reflexivity|].
  intros front r ->. apply sumY_snoc.
Qed.

Lemma normalizeBins_spec_witness :
  let bins := [mkCoord (Fin 0) (Fin 1); mkCoord (Fin 10) (Fin 3)] in
  let zero := [mkCoord (Fin 0) (Fin 5); mkCoord (Fin 10) (Fin (-5))] in
  Forall2 (fun r o => cy o = jdiv (jmul (cy r) (Fin 100)) (sumY bins))
    bins (normalizeBins bins)
  /\ Forall2 (fun r o => num_eq (cy o) (jmul (cy r) (Fin 100)))
       zero (normalizeBins zero).
Proof.
  intros bins zero. split.
  - apply (proj1 (proj2 (normalizeBins_spec bins))). reflexivity.
  - pose proof (proj1 (proj2 (proj2 (normalizeBins_spec zero))) eq_refl) as H.
    eapply Forall2_impl; [|exact H]. intros r o Hro. apply Hro.
Defined.

(** C6 as stated fails on weights of both signs: the weights of ["0:5,10:-5"]
    sum to zero, and the normalizer returns 500 and -500, not zeros. *)
Lemma normalizeBins_zero_sum_counterexample :
  let bins := parsePairs "0:5,10:-5" in
  sumY bins = Fin 0
  /\ map cy (normalizeBins bins) = [Fin (500 # 1); Fin (-500 # 1)]
  /\ ~ Forall (fun o => val (cy o) == 0) (normalizeBins bins).
Proof.
  cbv zeta. repeat split; try (vm_compute; reflexivity).
  intro H. inversion H as [|? ? H0 _]; subst.
  vm_compute in H0. discriminate.
Qed.

(** ** Properties: the scenario engine *)

Ltac unfold_calc :=
  unfold calc, calcVars;
  match goal with
  | |- context [crossover ?u ?c ?e ?g] =>
      let E := fresh "Ecross" in
      let ct := fresh "crossT" in
      let cn := fresh "crossN" in
      let cs := fresh "crossS" in
      destruct (crossover u c e g) as [[ct cn] cs] eqn:E
  end;
  cbv beta iota zeta delta [calcReturn Vars.kWhBase Vars.supplyC Vars.txC
    Vars.dfcNon Vars.dfcEH Vars.gasSupply Vars.gasDist Vars.afue
    Vars.heatMMBtu Vars.seasonalCOP Vars.gross Vars.credits Vars.gasAllIn
    Vars.allInNon Vars.allInEH Vars.baselineElec Vars.baselineGas
    Vars.baseline Vars.hpKWh Vars.hybrid Vars.hybridGasMMBtu
    Vars.hybridHPkWh Vars.matrix Vars.allElectric Vars.savingsAll
    Vars.savingsHybrid Vars.net Vars.paybackAll Vars.paybackHybrid
    Vars.dfcSavings Vars.costGasPerMMBtu Vars.crossoverTemp
    Vars.crossoverNote Vars.crossoverSeries
    Out.baseline Out.allElectric Out.hybrid Out.hybridGasMMBtu
    Out.hybridHPkWh Out.savingsAll Out.savingsHybrid Out.paybackAll
    Out.paybackHybrid Out.dfcSavings Out.gasHeatCost Out.hpHeatCost
    Out.fuelSwitchSavings Out.chart Out.crossoverTemp Out.crossoverNote
    Out.crossoverSeries Out.matrix].

Lemma toNumber_finite (value : string) (fallback : num) :
  isFinite fallback = true -> isFinite (toNumber value fallback) = true.
Proof.
  intro H. unfold toNumber.
  destruct (isFinite (Number value)) eqn:E; assumption.
Qed.

(** A field that holds a finite number is read as that number. *)
Lemma toNumber_read (value : string) (fallback : num) (q : Q) :
  Number value = Fin q -> toNumber value fallback = Fin q.
Proof. intro E. unfold toNumber. rewrite E. reflexivity. Qed.



(** ** Properties: payback *)







(** ** Properties: hybrid dispatch *)

Lemma isFinite_number (a : num) : isFinite a = true -> a <> NaN.
Proof. destruct a; discriminate. Qed.

Lemma jle_refl (a : num) : a <> NaN -> jle a a = true.
Proof.
  destruct a as [q| | |]; try reflexivity; [|congruence].
  intros _. apply jle_Fin. apply Qle_refl.
Qed.

Lemma jle_total (a b : num) :
  a <> NaN -> b <> NaN -> jle a b = false -> jle b a = true.
Proof.
  destruct a as [p| | |], b as [q| | |]; intros Ha Hb H;
    try congruence; try reflexivity; try discriminate.
  apply jle_Fin_false in H. apply jle_Fin. lra.
Qed.

(** The unit cost billed for a bin is the smaller of the two unit costs. *)
Lemma billedCost_le (table : list coord) (e gas : num) (b : coord) :
  hpCostAt table e (cx b) <> NaN -> gas <> NaN ->
  jle (billedCost table e gas b) (hpCostAt table e (cx b)) = true
  /\ jle (billedCost table e gas b) gas = true.
Proof.
  intros Hh Hg. unfold billedCost, heatPumpBin.
  destruct (jle (hpCostAt table e (cx b)) gas) eqn:E.
  - split; [apply jle_refl; exact Hh|exact E].
  - split; [apply jle_total; assumption|apply jle_refl; exact Hg].
Qed.

(** The amount billed for a bin of finite, non-negative heat is at most
    the amount either fuel alone would cost for that bin. *)
Lemma billedAmount_le (table : list coord) (e gas heat : num) (b : coord)
    (m h g : Q) :
  heat = Fin m -> 0 <= m ->
  hpCostAt table e (cx b) = Fin h -> gas = Fin g ->
  jle (jmul heat (billedCost table e gas b))
    (jmul heat (hpCostAt table e (cx b))) = true
  /\ jle (jmul heat (billedCost table e gas b)) (jmul heat gas) = true.
Proof.
  intros Em Hm Eh Eg. unfold billedCost, heatPumpBin.
  rewrite Em, Eh, Eg.
  destruct (jle (Fin h) (Fin g)) eqn:E; rewrite !jmul_Fin.
  - apply jle_Fin in E. split; apply jle_Fin; [apply Qle_refl|].
    rewrite (Qmult_comm m h), (Qmult_comm m g).
    apply Qmult_le_compat_r; assumption.
  - apply jle_Fin_false in E. split; apply jle_Fin; [|apply Qle_refl].
    rewrite (Qmult_comm m h), (Qmult_comm m g).
    apply Qmult_le_compat_r; [apply Qlt_le_weak|]; assumption.
Qed.

Section DispatchFold.

(** The heat load, the electric-heat rate, the gas cost of a unit of heat
    and the COP table of one call of [calc]. *)
Variables (heatMMBtu allInEH gas : num) (table : list coord).

Let step : binState -> coord -> binState :=
  binStep heatMMBtu allInEH gas table.

(** The four sums of the loop, from any state: the consumption of the heat
    pump runs over all the bins, the cost of the heat pump over the bins
    the dispatch gives to the heat pump, the cost and the heat of gas over
    the other bins. *)
Lemma binFold_sums (bins : list coord) :
  forall st : binState,
    st_hpKWh (fold_left step bins st)
    = fold_left
        (fun s b =>
           jadd s (jmul (binHeat heatMMBtu b)
                     (jdiv kWhPerMMBtu (interpCOP table (cx b)))))
        bins (st_hpKWh st)
    /\ st_costHPsum (fold_left step bins st)
       = fold_left
           (fun s b =>
              jadd s (jmul (binHeat heatMMBtu b)
                        (hpCostAt table allInEH (cx b))))
           (filter (heatPumpBin table allInEH gas) bins) (st_costHPsum st)
    /\ st_costGASsum (fold_left step bins st)
       = fold_left (fun s b => jadd s (jmul (binHeat heatMMBtu b) gas))
           (filter (gasBin table allInEH gas) bins) (st_costGASsum st)
    /\ st_hybridGasMMBtu (fold_left step bins st)
       = fold_left (fun s b => jadd s (binHeat heatMMBtu b))
           (filter (gasBin table allInEH gas) bins) (st_hybridGasMMBtu st).
Proof.
  induction bins as [|b bins IH]; intro st; [repeat split|].
  cbn [fold_left filter].
  destruct (IH (step st b)) as (E1 & E2 & E3 & E4).
  rewrite E1, E2, E3, E4. clear IH E1 E2 E3 E4.
  unfold step, binStep, gasBin, heatPumpBin, hpCostAt, binHeat.
  destruct (jle _ _); cbn; repeat split.
Qed.

Lemma binLoop_sums (bins : list coord) :
  let st := binLoop heatMMBtu allInEH gas table bins in
  st_hpKWh st
  = sumOver (fun b => jmul (binHeat heatMMBtu b)
                        (jdiv kWhPerMMBtu (interpCOP table (cx b)))) bins
  /\ st_costHPsum st
     = sumOver (fun b => jmul (binHeat heatMMBtu b)
                           (hpCostAt table allInEH (cx b)))
         (filter (heatPumpBin table allInEH gas) bins)
  /\ st_costGASsum st
     = sumOver (fun b => jmul (binHeat heatMMBtu b) gas)
         (filter (gasBin table allInEH gas) bins)
  /\ st_hybridGasMMBtu st
     = sumOver (binHeat heatMMBtu) (filter (gasBin table allInEH gas) bins).
Proof. unfold binLoop. fold step. apply binFold_sums. Qed.

End DispatchFold.

(** C7, as amended: in table mode the dispatch bills the heat of every bin
    at the smaller of its two unit costs, a tie going to the heat pump:
    the hybrid cost is [kWhBase * allInEH], plus the sum of
    [mmbtu * costHPperMMBtu] over the bins with
    [costHPperMMBtu <= costGasPerMMBtu], plus the sum of
    [mmbtu * costGasPerMMBtu] over the other bins, and the unit cost billed
    for a bin is at most its heat-pump unit cost and at most the gas unit
    cost, so that the amount billed for a bin of non-negative heat is at
    most the amount either fuel alone would cost for that bin.  The
    all-electric cost bills every bin at the heat-pump cost;
    the baseline bills the non-heating electricity at the other rate,
    [allInNon]. *)
Theorem hybrid_dispatch (inputs : Inputs.t) (copText binsText : string) :
  let v := calcVars inputs true copText binsText in
  let r := calc inputs true copText binsText in
  let table := parsePairs copText in
  let bins := normalizeBins (parsePairs binsText) in
  let e := Vars.allInEH v in
  let gas := Vars.costGasPerMMBtu v in
  let heat := binHeat (Vars.heatMMBtu v) in
  Vars.hybrid v
  = Some (jadd
            (jadd (jmul (Vars.kWhBase v) e)
               (sumOver (fun b => jmul (heat b) (hpCostAt table e (cx b)))
                  (filter (heatPumpBin table e gas) bins)))
            (sumOver (fun b => jmul (heat b) gas)
               (filter (gasBin table e gas) bins)))
  /\ Out.hybrid r = option_map Math_round (Vars.hybrid v)
  /\ Forall (fun b =>
               hpCostAt table e (cx b) <> NaN -> gas <> NaN ->
               jle (billedCost table e gas b) (hpCostAt table e (cx b))
               = true
               /\ jle (billedCost table e gas b) gas = true)
       bins
  /\ Forall (fun b =>
               forall m h g : Q,
                 heat b = Fin m -> 0 <= m ->
                 hpCostAt table e (cx b) = Fin h -> gas = Fin g ->
                 jle (jmul (heat b) (billedCost table e gas b))
                   (jmul (heat b) (hpCostAt table e (cx b))) = true
                 /\ jle (jmul (heat b) (billedCost table e gas b))
                      (jmul (heat b) gas) = true)
       bins
  /\ Vars.hpKWh v
     = sumOver (fun b => jmul (heat b)
                           (jdiv kWhPerMMBtu (interpCOP table (cx b))))
         bins
  /\ Vars.allElectric v = jmul (jadd (Vars.kWhBase v) (Vars.hpKWh v)) e
  /\ Vars.baseline v
     = jadd (jmul (Vars.kWhBase v) (Vars.allInNon v)) (Vars.baselineGas v)
  /\ gas
     = jmul (jdiv (jdiv (Fin 1) (Fin (1 # 10))) (Vars.afue v))
         (Vars.gasAllIn v)
  /\ e
     = jdiv (jadd (jadd (Vars.supplyC v) (Vars.txC v)) (Vars.dfcEH v))
         (Fin 100)
  /\ Vars.allInNon v
     = jdiv (jadd (jadd (Vars.supplyC v) (Vars.txC v)) (Vars.dfcNon v))
         (Fin 100)
  /\ Vars.dfcEH v = toNumber (Inputs.dfcEH inputs) DEFAULTS.dfcEH
  /\ Vars.dfcNon v = toNumber (Inputs.dfcNon inputs) DEFAULTS.dfcNon
  /\ Vars.heatMMBtu v
     = toNumber (Inputs.heatMMBtu inputs) DEFAULTS.heatMMBtu
  /\ (forall q, Number (Inputs.dfcEH inputs) = Fin q ->
       Vars.dfcEH v = Fin q)
  /\ (forall q, Number (Inputs.dfcNon inputs) = Fin q ->
       Vars.dfcNon v = Fin q)
  /\ (forall q, Number (Inputs.heatMMBtu inputs) = Fin q ->
       Vars.heatMMBtu v = Fin q).
Proof.
  cbv zeta. unfold_calc.
  match goal with
  | |- context [binLoop ?h ?e ?g ?t ?b] =>
      destruct (binLoop_sums h e g t b) as (Ehp & Echp & Ecg & _)
  end.
  rewrite Ehp, Echp, Ecg.
  repeat match goal with |- _ /\ _ => split end;
    try reflexivity; try (intro q; apply toNumber_read).
  - apply Forall_forall. intros b _. apply billedCost_le.
  - apply Forall_forall. intros b _ m h g. apply billedAmount_le.
Qed.

Lemma Forall_forallb {A : Type} (f : A -> bool) (P : A -> Prop)
    (l : list A) :
  (forall a, f a = true -> P a) -> forallb f l = true -> Forall P l.
Proof.
  intros Hf Hl. apply Forall_forall. intros a Ha.
  apply Hf. rewrite forallb_forall in Hl. apply Hl, Ha.
Qed.

Lemma hybrid_dispatch_witness :
  let v := calcVars defaultInputs true DEFAULT_COP DEFAULT_BINS in
  let table := parsePairs DEFAULT_COP in
  let bins := normalizeBins (parsePairs DEFAULT_BINS) in
  let e := Vars.allInEH v in
  let gas := Vars.costGasPerMMBtu v in
  let heat := binHeat (Vars.heatMMBtu v) in
  Forall (fun b => jle (billedCost table e gas b) gas = true) bins
  /\ Forall (fun b =>
               jle (jmul (heat b) (billedCost table e gas b))
                 (jmul (heat b) (hpCostAt table e (cx b))) = true)
       bins
  /\ Out.hybrid (calc defaultInputs true DEFAULT_COP DEFAULT_BINS)
     = option_map Math_round (Vars.hybrid v).
Proof.
  intros v table bins e gas heat.
  pose proof (hybrid_dispatch defaultInputs DEFAULT_COP DEFAULT_BINS) as H.
  cbv zeta in H. fold v table bins e gas heat in H.
  destruct H as (_ & Eo & Hbill & Hamount & _).
  assert (Hnum : Forall
                   (fun b =>
                      (isFinite (hpCostAt table e (cx b)) = true
                       /\ isFinite gas = true)
                      /\ isFinite (heat b) = true
                      /\ 0 <= val (heat b))
                   bins).
  { apply (Forall_forallb
             (fun b =>
                isFinite (hpCostAt table e (cx b)) && isFinite gas
                && isFinite (heat b) && Qle_bool 0 (val (heat b)))).
    - intros b Hb. repeat rewrite andb_true_iff in Hb.
      destruct Hb as [[[H1 H2] H3] H4]. apply Qle_bool_iff in H4.
      repeat split; assumption.
    - vm_compute. reflexivity. }
  rewrite Forall_forall in Hbill, Hamount, Hnum.
  split; [|split; [|exact Eo]]; apply Forall_forall; intros b Hb;
    destruct (Hnum b Hb) as [[H1 H2] [H3 H4]].
  - apply (Hbill b Hb); apply isFinite_number; assumption.
  - apply (Hamount b Hb (val (heat b)) (val (hpCostAt table e (cx b)))
             (val gas));
      try (apply isFinite_Fin; assumption); exact H4.
Defined.

(** C7 as stated fails.  With [dfcEH] set to 9, above [dfcNon], the hybrid
    cost (14007) exceeds the baseline cost (11148), the smaller of the two
    pure scenarios; with the heat load set to -37.5 the hybrid cost (7520)
    exceeds the all-electric cost (7451). *)
Lemma hybrid_dominance_counterexample :
  let i9 :=
    Inputs.mk "97300" "3.331" "1.767" "6.062" "9" "0.52" "0.2134" "0.95"
      "37.5" "2.2" "10354" "2600" in
  let ineg :=
    Inputs.mk "97300" "3.331" "1.767" "6.062" "2.924" "0.52" "0.2134" "0.95"
      "-37.5" "2.2" "10354" "2600" in
  let v9 := calcVars i9 true DEFAULT_COP DEFAULT_BINS in
  let r9 := calc i9 true DEFAULT_COP DEFAULT_BINS in
  let vneg := calcVars ineg true DEFAULT_COP DEFAULT_BINS in
  let rneg := calc ineg true DEFAULT_COP DEFAULT_BINS in
  (Out.hybrid r9 = Some (Fin 14007)
   /\ Out.baseline r9 = Fin 11148
   /\ Out.allElectric r9 = Fin 14341
   /\ jle (Fin 14007) (Math_min (Out.allElectric r9) (Out.baseline r9))
      = false
   /\ match Vars.hybrid v9 with
      | Some h => jle h (Vars.baseline v9)
      | None => true
      end = false)
  /\ (Out.hybrid rneg = Some (Fin 7520)
      /\ Out.allElectric rneg = Fin 7451
      /\ jle (Fin 7520) (Out.allElectric rneg) = false
      /\ match Vars.hybrid vneg with
         | Some h => jle h (Vars.allElectric vneg)
         | None => true
         end = false).
Proof.
  cbv zeta.
  repeat match goal with
         | |- _ /\ _ => split
         | |- _ = _ => vm_compute; reflexivity
         end.
Qed.

(** ** Properties: the crossover scan *)

Lemma Qfloor_unique (x : Q) (z : Z) :
  inject_Z z <= x -> x < inject_Z (z + 1) -> Qfloor x = z.
Proof.
  intros Hlo Hhi.
  assert (H1 : (z <= Qfloor x)%Z).
  { rewrite <- (Qfloor_Z z). apply Qfloor_resp_le. exact Hlo. }
  assert (H2 : (Qfloor x < z + 1)%Z).
  { rewrite Zlt_Qlt. apply Qle_lt_trans with x; [apply Qfloor_le|exact Hhi]. }
  lia.
Qed.

Lemma Qfloor_pred (x : Q) : Qfloor (x - 1) = (Qfloor x - 1)%Z.
Proof.
  apply Qfloor_unique.
  - pose proof (Qfloor_le x) as H.
    replace (Qfloor x - 1)%Z with (Qfloor x + (-1))%Z by lia.
    rewrite inject_Z_plus. change (inject_Z (-1)) with (-1 # 1). lra.
  - pose proof (Qlt_floor x) as H.
    replace (Qfloor x - 1 + 1)%Z with (Qfloor x) by lia.
    rewrite inject_Z_plus in H. change (inject_Z 1) with 1 in H. lra.
Qed.

Lemma scanFuel_stop (t M : Q) : M < t -> scanFuel (Fin t) (Fin M) = O.
Proof.
  intro H. unfold scanFuel.
  change (jsub (Fin M) (Fin t)) with (Fin (M - t)). cbv beta iota.
  assert (Hf : (Qfloor (M - t) < 0)%Z).
  { rewrite Zlt_Qlt. apply Qle_lt_trans with (M - t); [apply Qfloor_le|].
    change (inject_Z 0) with 0. lra. }
  lia.
Qed.

Lemma scanFuel_step (t M : Q) :
  t <= M ->
  scanFuel (Fin t) (Fin M) = S (scanFuel (jadd (Fin t) (Fin 1)) (Fin M)).
Proof.
  intro H. unfold scanFuel.
  change (jsub (Fin M) (jadd (Fin t) (Fin 1))) with (Fin (M - (t + 1))).
  change (jsub (Fin M) (Fin t)) with (Fin (M - t)). cbv beta iota.
  assert (E : Qfloor (M - (t + 1)) = (Qfloor (M - t) - 1)%Z).
  { rewrite <- Qfloor_pred. apply Qfloor_comp. ring. }
  rewrite E.
  assert (Hf : (0 <= Qfloor (M - t))%Z).
  { rewrite <- (Qfloor_Z 0). apply Qfloor_resp_le. change (inject_Z 0) with 0. lra. }
  lia.
Qed.

(** The scan stops by itself within [scanFuel] iterations: more fuel does
    not change its result. *)
Lemma crossScan_fuel_enough (table : list coord) (allInEH gas : num) (M : Q) :
  forall (fuel : nat) (t : Q) (prevT prevDiff : num)
         (series : list seriesPoint),
    (scanFuel (Fin t) (Fin M) <= fuel)%nat ->
    crossScan fuel table allInEH gas (Fin M) (Fin t) prevT prevDiff series
    = crossScan (scanFuel (Fin t) (Fin M)) table allInEH gas (Fin M) (Fin t)
        prevT prevDiff series.
Proof.
  induction fuel as [|fuel IH]; intros t prevT prevDiff series Hle.
  - assert (E : scanFuel (Fin t) (Fin M) = O) by lia.
    rewrite E. reflexivity.
  - destruct (Qlt_le_dec M t) as [Hgt|Hin].
    + rewrite (scanFuel_stop t M Hgt). simpl.
      assert (E : jle (Fin t) (Fin M) = false) by (apply jle_Fin_false; exact Hgt).
      rewrite E. reflexivity.
    + rewrite (scanFuel_step t M Hin) in *.
      change (jadd (Fin t) (Fin 1)) with (Fin (t + 1)) in *.
      cbn [crossScan].
      change (jadd (Fin t) (Fin 1)) with (Fin (t + 1)).
      destruct (jle (Fin t) (Fin M)); [|reflexivity].
      destruct (signChange _ _); [reflexivity|].
      apply IH. lia.
Qed.

(** A scan that finds no crossover pushes one point for every step left. *)
Lemma crossScan_no_crossover (table : list coord) (allInEH gas : num)
    (M : Q) :
  forall (fuel : nat) (t : Q) (prevT prevDiff : num)
         (series out : list seriesPoint),
    (scanFuel (Fin t) (Fin M) <= fuel)%nat ->
    crossScan fuel table allInEH gas (Fin M) (Fin t) prevT prevDiff series
    = (None, out) ->
    List.length out
    = (List.length series + scanFuel (Fin t) (Fin M))%nat.
Proof.
  induction fuel as [|fuel IH]; intros t prevT prevDiff series out Hle Hrun.
  - assert (E : scanFuel (Fin t) (Fin M) = O) by lia.
    rewrite E. simpl in Hrun. inversion Hrun. lia.
  - destruct (Qlt_le_dec M t) as [Hgt|Hin].
    + rewrite (scanFuel_stop t M Hgt). simpl in Hrun.
      assert (E : jle (Fin t) (Fin M) = false)
        by (apply jle_Fin_false; exact Hgt).
      rewrite E in Hrun. inversion Hrun. lia.
    + rewrite (scanFuel_step t M Hin) in *.
      change (jadd (Fin t) (Fin 1)) with (Fin (t + 1)) in *.
      cbn [crossScan] in Hrun.
      assert (E : jle (Fin t) (Fin M) = true) by (apply jle_Fin; exact Hin).
      rewrite E in Hrun.
      destruct (signChange _ _); [discriminate|].
      change (jadd (Fin t) (Fin 1)) with (Fin (t + 1)) in Hrun.
      apply IH in Hrun; [|lia].
      rewrite Hrun, length_app. simpl. lia.
Qed.

(** In [crossover] the bounds of the scan are finite and the fuel given to
    the scan is enough: more fuel gives the same result. *)
Lemma crossover_fuel_enough (copText : string) (first : coord)
    (rest : list coord) (allInEH gas prevDiff : num) (extra : nat) :
  parsePairs copText = first :: rest ->
  let table := first :: rest in
  let tMin := Math_min (Fin (-20)) (cx first) in
  let tMax := Math_max (Fin 65) (cx (last table first)) in
  isFinite tMin = true /\ isFinite tMax = true
  /\ crossScan (scanFuel tMin tMax + extra) table allInEH gas tMax
       tMin tMin prevDiff []
     = crossScan (scanFuel tMin tMax) table allInEH gas tMax
         tMin tMin prevDiff [].
Proof.
  intros Etable table tMin tMax.
  pose proof (parsePairs_finiteX copText) as Hf. rewrite Etable in Hf.
  assert (Hfirst : isFinite (cx first) = true) by (inversion Hf; assumption).
  assert (Hlast : isFinite (cx (last table first)) = true).
  { unfold table. clear - Hf. revert first Hf.
    induction rest as [|b rest IH]; intros a Hf.
    - inversion Hf; assumption.
    - rewrite last_cons_cons, (last_indep rest b a b).
      apply IH. inversion Hf; assumption. }
  assert (Hmin : isFinite tMin = true).
  { unfold tMin, Math_min. rewrite (isFinite_Fin _ Hfirst). simpl jcmp.
    destruct (_ ?= _); reflexivity. }
  assert (Hmax : isFinite tMax = true).
  { unfold tMax, Math_max. rewrite (isFinite_Fin _ Hlast). simpl jcmp.
    destruct (_ ?= _); reflexivity. }
  split; [exact Hmin|]. split; [exact Hmax|].
  rewrite (isFinite_Fin _ Hmin), (isFinite_Fin _ Hmax).
  apply crossScan_fuel_enough. lia.
Qed.

(** When [crossover] finds no crossover in a table of two entries or more,
    the series holds one point for every step of the scanned domain. *)
Lemma crossover_series_complete (copText : string) (first second : coord)
    (rest : list coord) (allInEH gas : num) (note : string)
    (series : list seriesPoint) :
  parsePairs copText = first :: second :: rest ->
  crossover true copText allInEH gas = (None, note, series) ->
  List.length series
  = scanFuel (Math_min (Fin (-20)) (cx first))
      (Math_max (Fin 65) (cx (last (first :: second :: rest) first))).
Proof.
  intros Etable Hrun. unfold crossover in Hrun. rewrite Etable in Hrun.
  destruct (crossover_fuel_enough copText first (second :: rest) allInEH gas
              (jsub (hpCostAt (first :: second :: rest) allInEH
                       (Math_min (Fin (-20)) (cx first))) gas)
              O Etable) as (Hmin & Hmax & _).
  cbv zeta in Hmin, Hmax, Hrun.
  set (tMin := Math_min (Fin (-20)) (cx first)) in *.
  set (tMax := Math_max (Fin 65) (cx (last (first :: second :: rest) first)))
    in *.
  destruct (crossScan _ _ _ _ _ _ _ _ _) as [[ct|] out] eqn:Escan;
    [inversion Hrun|].
  inversion Hrun; subst.
  rewrite (isFinite_Fin _ Hmin), (isFinite_Fin _ Hmax) in Escan |- *.
  apply crossScan_no_crossover in Escan; [exact Escan|lia].
Qed.

(** C2, as amended: in table mode with fewer than two parsed COP entries
    the crossover temperature is null, the crossover series is empty and the
    crossover note is the empty string; the "Provide a COP table" note is
    the note of the mode without the COP table. *)
Theorem crossover_short_table (inputs : Inputs.t)
    (copText binsText : string) :
  ((List.length (parsePairs copText) < 2)%nat ->
   let r := calc inputs true copText binsText in
   Out.crossoverTemp r = None
   /\ Out.crossoverNote r = ""
   /\ Out.crossoverSeries r = [])
  /\ (let r := calc inputs false copText binsText in
      Out.crossoverTemp r = None
      /\ Out.crossoverNote r = NOTE_PROVIDE
      /\ Out.crossoverSeries r = []).
Proof.
  split.
  - intros Hlen. unfold_calc.
    unfold crossover in Ecross.
    destruct (parsePairs copText) as [|e1 [|e2 more]].
    + inversion Ecross. repeat split.
    + inversion Ecross. repeat split.
    + simpl in Hlen. lia.
  - unfold_calc. unfold crossover in Ecross. inversion Ecross.
    repeat split.
Qed.

Lemma crossover_short_table_witness :
  let r := calc defaultInputs true "40:3" DEFAULT_BINS in
  Out.crossoverTemp r = None
  /\ Out.crossoverNote r = ""
  /\ Out.crossoverSeries r = [].
Proof.
  apply (proj1 (crossover_short_table defaultInputs "40:3" DEFAULT_BINS)).
  vm_compute. lia.
Defined.

(** C2 as stated fails: with the one-entry COP table ["40:3"] in table mode
    the crossover note is the empty string, not the "Provide a COP table"
    note. *)
Lemma crossover_note_counterexample :
  let r := calc defaultInputs true "40:3" DEFAULT_BINS in
  List.length (parsePairs "40:3") = 1%nat
  /\ Out.crossoverTemp r = None
  /\ Out.crossoverNote r = ""
  /\ Out.crossoverNote r <> NOTE_PROVIDE.
Proof.
  cbv zeta.
  assert (E : Out.crossoverNote (calc defaultInputs true "40:3" DEFAULT_BINS)
              = "") by (vm_compute; reflexivity).
  rewrite E. repeat split; try (vm_compute; reflexivity).
  discriminate.
Qed.

(** C8, on the default inputs: the scanned domain is -20..65 (86 steps),
    the scan finds the crossover 39.0 at the step [t = 39], and the series
    returned holds the 60 steps -20..39 only: the steps 40..65 are missing.
    With [dfcEH] set to 9, where no crossover is found, the series holds the
    86 steps -20..65. *)
Theorem crossoverSeries_default_truncated :
  let table := parsePairs DEFAULT_COP in
  let r := calc defaultInputs true DEFAULT_COP DEFAULT_BINS in
  let r9 :=
    calc (Inputs.mk "97300" "3.331" "1.767" "6.062" "9" "0.52" "0.2134"
            "0.95" "37.5" "2.2" "10354" "2600")
      true DEFAULT_COP DEFAULT_BINS in
  let steps (n : nat) :=
    map (fun k => Fin (inject_Z (Z.of_nat k - 20))) (seq 0 n) in
  Math_min (Fin (-20)) (cx (hd (mkCoord NaN NaN) table)) = Fin (-20)
  /\ Math_max (Fin 65) (cx (last table (mkCoord NaN NaN))) = Fin 65
  /\ Out.crossoverTemp r = Some (Fin (390 # 10))
  /\ map pt_t (Out.crossoverSeries r) = steps 60%nat
  /\ Out.crossoverTemp r9 = None
  /\ map pt_t (Out.crossoverSeries r9) = steps 86%nat.
Proof.
  cbv zeta. repeat (split; [vm_compute; reflexivity|]).
  vm_compute. reflexivity.
Qed.

(** ** Properties: non-finite outputs *)

(** C1, on three inputs that differ from the defaults in one field: with
    the AFUE text ["0"] the baseline cost, the savings, the gas heat cost
    and the fuel-switch savings returned are [+Infinity]; with the seasonal
    COP text ["0"] and no COP table the all-electric cost is [+Infinity];
    with the COP table ["0:0,10:0"] of zero COPs the all-electric cost is
    [NaN]. *)
Theorem calc_non_finite_outputs :
  let afue0 :=
    Inputs.mk "97300" "3.331" "1.767" "6.062" "2.924" "0.52" "0.2134"
      "0" "37.5" "2.2" "10354" "2600" in
  let cop0 :=
    Inputs.mk "97300" "3.331" "1.767" "6.062" "2.924" "0.52" "0.2134"
      "0.95" "37.5" "0" "10354" "2600" in
  let r1 := calc afue0 true DEFAULT_COP DEFAULT_BINS in
  let r2 := calc cop0 false DEFAULT_COP DEFAULT_BINS in
  let r3 := calc defaultInputs true "0:0,10:0" DEFAULT_BINS in
  (Vars.afue (calcVars afue0 true DEFAULT_COP DEFAULT_BINS) = Fin 0
   /\ Out.baseline r1 = PInf
   /\ Out.savingsAll r1 = PInf
   /\ Out.savingsHybrid r1 = Some PInf
   /\ Out.gasHeatCost r1 = PInf
   /\ Out.fuelSwitchSavings r1 = PInf)
  /\ (Out.allElectric r2 = PInf
      /\ Out.savingsAll r2 = NInf
      /\ Out.hpHeatCost r2 = PInf)
  /\ (Out.allElectric r3 = NaN
      /\ Out.savingsAll r3 = NaN
      /\ Out.hpHeatCost r3 = NaN).
Proof.
  cbv zeta.
  repeat match goal with
         | |- _ /\ _ => split
         | |- _ = _ => vm_compute; reflexivity
         end.
Qed.

(** ** Further properties: reading text *)

Lemma trim_blank (s : string) :
  allOf isWhite s = true -> trim s = EmptyString.
Proof. intro H. unfold trim. rewrite (trimStart_blank s H). reflexivity. Qed.

(** A blank field reads as 0, whatever its default; and a field never reads
    as a non-finite number when its default is finite. *)
Theorem toNumber_blank (value : string) (fallback : num) :
  (allOf isWhite value = true -> toNumber value fallback = Fin 0)
  /\ (isFinite fallback = true -> isFinite (toNumber value fallback) = true).
Proof.
  split.
  - intro H. unfold toNumber, Number. rewrite (trim_blank value H).
    reflexivity.
  - apply toNumber_finite.
Qed.

Lemma toNumber_blank_witness :
  toNumber "  " DEFAULTS.afue = Fin 0
  /\ isFinite (toNumber "abc" DEFAULTS.afue) = true.
Proof.
  split.
  - apply (proj1 (toNumber_blank "  " DEFAULTS.afue)). reflexivity.
  - apply (proj2 (toNumber_blank "abc" DEFAULTS.afue)). reflexivity.
Defined.

Lemma splitBy_blank (text : string) :
  allOf isBlankOrSeparator text = true ->
  Forall (fun piece => allOf isWhite piece = true)
    (splitBy isNewlineOrComma text).
Proof.
  induction text as [|c r IH]; intro H.
  - repeat constructor.
  - simpl in H. apply andb_true_iff in H. destruct H as [Hc Hr].
    specialize (IH Hr). simpl.
    destruct (isNewlineOrComma c) eqn:E.
    + constructor; [reflexivity|exact IH].
    + unfold isBlankOrSeparator in Hc. rewrite E, orb_false_r in Hc.
      destruct (splitBy isNewlineOrComma r) as [|piece more].
      * repeat constructor. simpl. rewrite Hc. reflexivity.
      * inversion IH; subst. constructor; [|assumption].
        simpl. rewrite Hc. assumption.
Qed.

(** A text of white space, commas and newlines only has no entry and
    parses to the empty list. *)
Theorem parsePairs_blank (text : string) :
  allOf isBlankOrSeparator text = true ->
  entries text = [] /\ parsePairs text = [].
Proof.
  intro H.
  assert (E : entries text = []).
  { unfold entries. pose proof (splitBy_blank text H) as Hp.
    induction Hp as [|piece l Hpiece _ IH]; [reflexivity|].
    simpl. rewrite (trim_blank piece Hpiece). simpl. exact IH. }
  split; [exact E|]. unfold parsePairs. rewrite E. reflexivity.
Qed.

Lemma parsePairs_blank_witness : parsePairs " ,
 , " = [].
Proof.
  apply (proj2 (parsePairs_blank " ,
 , " eq_refl)).
Defined.

(** ** Further properties: the order of the parsed coordinates *)

Lemma insertByX_stable (k : Q) (p : coord) (l : list coord) :
  isFinite (cx p) = true -> finiteX l ->
  filter (sameX k) (insertByX p l) = filter (sameX k) (p :: l).
Proof.
  intros Hp Hl. induction l as [|q l IH]; [reflexivity|].
  inversion Hl as [|? ? Hq Hl']; subst.
  cbn [insertByX].
  destruct (jgt (jsub (cx p) (cx q)) (Fin 0)) eqn:E; [|reflexivity].
  cbn [filter]. rewrite (IH Hl'). cbn [filter].
  destruct (sameX k p) eqn:Ep; [|reflexivity].
  destruct (sameX k q) eqn:Eq; [|reflexivity].
  exfalso. unfold sameX in Ep, Eq.
  apply Qeq_bool_iff in Ep. apply Qeq_bool_iff in Eq.
  rewrite (isFinite_Fin _ Hp), (isFinite_Fin _ Hq) in E.
  apply jgt_diff_Fin in E. lra.
Qed.

Lemma sortByX_stable (k : Q) (l : list coord) :
  finiteX l -> filter (sameX k) (sortByX l) = filter (sameX k) l.
Proof.
  induction l as [|p l IH]; intro Hf; [reflexivity|].
  inversion Hf as [|? ? Hp Hf']; subst.
  cbn [sortByX]. rewrite insertByX_stable.
  - cbn [filter]. rewrite (IH Hf'). reflexivity.
  - exact Hp.
  - unfold finiteX. rewrite (sortByX_perm l). exact Hf'.
Qed.

Lemma filtered_finiteX (l : list coord) : finiteX (filter finiteCoord l).
Proof.
  apply Forall_forall. intros p Hp. apply filter_In in Hp.
  destruct Hp as [_ Hp]. apply andb_true_iff in Hp. apply Hp.
Qed.

(** The sort of the pair parser is stable: the coordinates that share an
    [x] come out in the order of their entries in the text. *)
Theorem parsePairs_stable (text : string) (k : Q) :
  filter (sameX k) (parsePairs text)
  = filter (sameX k) (filter finiteCoord (map pairOf (entries text))).
Proof.
  unfold parsePairs. apply sortByX_stable, filtered_finiteX.
Qed.

Lemma sortByX_sorted_id (l : list coord) :
  finiteX l -> sortedX l -> sortByX l = l.
Proof.
  induction l as [|p l IH]; intros Hf Hs; [reflexivity|].
  inversion Hf as [|? ? Hp Hf']; subst.
  inversion Hs as [|? ? Hs' Hhd]; subst.
  cbn [sortByX]. rewrite (IH Hf' Hs').
  destruct l as [|q l]; [reflexivity|].
  inversion Hhd as [|? ? Hpq]; subst.
  inversion Hf' as [|? ? Hq _]; subst.
  cbn [insertByX].
  destruct (jgt (jsub (cx p) (cx q)) (Fin 0)) eqn:E; [|reflexivity].
  exfalso. unfold leX in Hpq.
  rewrite (isFinite_Fin _ Hp), (isFinite_Fin _ Hq) in E.
  apply jgt_diff_Fin in E. lra.
Qed.

(** A text whose finite coordinates are already in non-decreasing order of
    [x] is parsed in the order of the text; and sorting a parsed list again
    changes nothing. *)
Theorem parsePairs_sorted_text (text : string) :
  (sortedX (filter finiteCoord (map pairOf (entries text))) ->
   parsePairs text = filter finiteCoord (map pairOf (entries text)))
  /\ sortByX (parsePairs text) = parsePairs text.
Proof.
  split.
  - intro Hs. unfold parsePairs.
    apply sortByX_sorted_id; [apply filtered_finiteX|exact Hs].
  - apply sortByX_sorted_id.
    + apply parsePairs_finiteX.
    + unfold parsePairs. apply sortByX_sorted, filtered_finiteX.
Qed.

Lemma parsePairs_sorted_text_witness :
  parsePairs "1:5, 2:6, 2:7"
  = filter finiteCoord (map pairOf (entries "1:5, 2:6, 2:7")).
Proof.
  apply (proj1 (parsePairs_sorted_text "1:5, 2:6, 2:7")).
  vm_compute. repeat constructor; discriminate.
Defined.

(** ** Further properties: the per-bin matrix *)

Section BinLoopFacts.

Variables (heatMMBtu allInEH costGasPerMMBtu : num) (table : list coord).

Let step : binState -> coord -> binState :=
  binStep heatMMBtu allInEH costGasPerMMBtu table.

Lemma binStep_matrix (st : binState) (b : coord) :
  st_matrix (step st b)
  = st_matrix st ++ [rowOf allInEH costGasPerMMBtu table b].
Proof.
  unfold step, binStep, rowOf, hpCostAt.
  destruct (jle _ _); reflexivity.
Qed.

Lemma binFold_matrix (bins : list coord) :
  forall st : binState,
    st_matrix (fold_left step bins st)
    = st_matrix st ++ map (rowOf allInEH costGasPerMMBtu table) bins.
Proof.
  induction bins as [|b bins IH]; intro st; simpl.
  - rewrite app_nil_r. reflexivity.
  - rewrite IH, binStep_matrix, <- app_assoc. reflexivity.
Qed.

Lemma binLoop_matrix (bins : list coord) :
  st_matrix (binLoop heatMMBtu allInEH costGasPerMMBtu table bins)
  = map (rowOf allInEH costGasPerMMBtu table) bins.
Proof. unfold binLoop. fold step. rewrite binFold_matrix. reflexivity. Qed.

End BinLoopFacts.

Lemma normalizeBins_cx (bins : list coord) :
  map cx (normalizeBins bins) = map cx bins.
Proof. unfold normalizeBins. rewrite map_map. reflexivity. Qed.

(** With the COP table, the matrix returned has one row for every parsed
    bin, in ascending order of temperature; every row is a function of its
    temperature [t]: its COP is the COP interpolated at [t], its heat-pump
    cost is the cost [hpCost(t)] of the crossover curve, its gas cost is the
    one gas cost, all rounded to two decimals, and it is labelled "HP" when
    [hpCost(t) <= gasCost] holds and "Gas" otherwise.  Without the COP
    table the matrix is empty. *)
Theorem matrix_rows (inputs : Inputs.t) (copText binsText : string) :
  let v := calcVars inputs true copText binsText in
  let r := calc inputs true copText binsText in
  let table := parsePairs copText in
  map row_t (Out.matrix r) = map cx (parsePairs binsText)
  /\ Forall (fun row =>
               row_cop row = toFixed 2 (interpCOP table (row_t row))
               /\ row_hpCost row
                  = toFixed 2 (hpCostAt table (Vars.allInEH v) (row_t row))
               /\ row_gasCost row = toFixed 2 (Vars.costGasPerMMBtu v)
               /\ row_cheaper row
                  = if jle (hpCostAt table (Vars.allInEH v) (row_t row))
                         (Vars.costGasPerMMBtu v)
                    then "HP" else "Gas")
       (Out.matrix r)
  /\ Out.matrix (calc inputs false copText binsText) = [].
Proof.
  cbv zeta. split; [|split].
  - unfold_calc. rewrite binLoop_matrix, map_map. cbn [rowOf row_t].
    apply normalizeBins_cx.
  - unfold_calc. rewrite binLoop_matrix.
    apply Forall_map, Forall_forall. intros b _.
    cbn [rowOf row_t row_cop row_hpCost row_gasCost row_cheaper].
    repeat split.
  - unfold_calc. reflexivity.
Qed.

(** ** Further properties: the heat served by gas *)

Lemma filter_all {A : Type} (f : A -> bool) (l : list A) :
  Forall (fun a => f a = true) l -> filter f l = l.
Proof.
  induction 1 as [|a l Ha _ IH]; [reflexivity|].
  simpl. rewrite Ha, IH. reflexivity.
Qed.

Lemma filter_none {A : Type} (f : A -> bool) (l : list A) :
  Forall (fun a => f a = false) l -> filter f l = [].
Proof.
  induction 1 as [|a l Ha _ IH]; [reflexivity|].
  simpl. rewrite Ha. exact IH.
Qed.

Lemma rows_all_HP (allInEH gas : num) (table bins : list coord) :
  Forall (fun row => row_cheaper row = "HP")
    (map (rowOf allInEH gas table) bins) ->
  Forall (fun b => gasBin table allInEH gas b = false) bins.
Proof.
  intro H. apply Forall_map in H.
  eapply Forall_impl; [|exact H]. intros b Hb. cbn [rowOf row_cheaper] in Hb.
  unfold gasBin, heatPumpBin. destruct (jle _ _); [reflexivity|discriminate].
Qed.

Lemma rows_all_Gas (allInEH gas : num) (table bins : list coord) :
  Forall (fun row => row_cheaper row = "Gas")
    (map (rowOf allInEH gas table) bins) ->
  Forall (fun b => gasBin table allInEH gas b = true) bins.
Proof.
  intro H. apply Forall_map in H.
  eapply Forall_impl; [|exact H]. intros b Hb. cbn [rowOf row_cheaper] in Hb.
  unfold gasBin, heatPumpBin. destruct (jle _ _); [discriminate|reflexivity].
Qed.

(** The heat served by gas in the hybrid scenario is the heat of the bins
    that the matrix labels "Gas", added in the order of the bins: it is 0
    when every row is labelled "HP", the sum over all the bins when every
    row is labelled "Gas", and 0 without the COP table; the record returned
    holds it rounded to one decimal. *)
Theorem hybridGas_accounting (inputs : Inputs.t)
    (copText binsText : string) :
  let v := calcVars inputs true copText binsText in
  let r := calc inputs true copText binsText in
  let table := parsePairs copText in
  let bins := normalizeBins (parsePairs binsText) in
  let e := Vars.allInEH v in
  let gas := Vars.costGasPerMMBtu v in
  let heat := binHeat (Vars.heatMMBtu v) in
  Vars.hybridGasMMBtu v = sumOver heat (filter (gasBin table e gas) bins)
  /\ Out.hybridGasMMBtu r = toFixed 1 (Vars.hybridGasMMBtu v)
  /\ map row_cheaper (Out.matrix r)
     = map (fun b => if gasBin table e gas b then "Gas" else "HP") bins
  /\ (Forall (fun row => row_cheaper row = "HP") (Out.matrix r) ->
      Vars.hybridGasMMBtu v = Fin 0)
  /\ (Forall (fun row => row_cheaper row = "Gas") (Out.matrix r) ->
      Vars.hybridGasMMBtu v = sumOver heat bins)
  /\ Vars.hybridGasMMBtu (calcVars inputs false copText binsText) = Fin 0.
Proof.
  cbv zeta. split; [|split; [|split; [|split; [|split]]]].
  - unfold_calc.
    match goal with
    | |- context [binLoop ?h ?e ?g ?t ?b] =>
        destruct (binLoop_sums h e g t b) as (_ & _ & _ & Eg)
    end.
    exact Eg.
  - unfold_calc. reflexivity.
  - unfold_calc. rewrite binLoop_matrix, map_map.
    apply map_ext. intro b. cbn [rowOf row_cheaper].
    unfold gasBin, heatPumpBin. destruct (jle _ _); reflexivity.
  - unfold_calc. rewrite binLoop_matrix. intro Hrows.
    apply rows_all_HP in Hrows.
    match goal with
    | |- context [binLoop ?h ?e ?g ?t ?b] =>
        destruct (binLoop_sums h e g t b) as (_ & _ & _ & Eg)
    end.
    rewrite Eg, (filter_none _ _ Hrows). reflexivity.
  - unfold_calc. rewrite binLoop_matrix. intro Hrows.
    apply rows_all_Gas in Hrows.
    match goal with
    | |- context [binLoop ?h ?e ?g ?t ?b] =>
        destruct (binLoop_sums h e g t b) as (_ & _ & _ & Eg)
    end.
    rewrite Eg, (filter_all _ _ Hrows). reflexivity.
  - unfold_calc. reflexivity.
Qed.

Lemma hybridGas_accounting_witness :
  let cheapGas :=
    Inputs.mk "97300" "3.331" "1.767" "6.062" "9" "0.52" "0.2134" "0.95"
      "37.5" "2.2" "10354" "2600" in
  let dearGas :=
    Inputs.mk "97300" "3.331" "1.767" "6.062" "2.924" "5" "0.2134" "0.95"
      "37.5" "2.2" "10354" "2600" in
  Vars.hybridGasMMBtu (calcVars dearGas true DEFAULT_COP DEFAULT_BINS)
  = Fin 0
  /\ Vars.hybridGasMMBtu (calcVars cheapGas true DEFAULT_COP DEFAULT_BINS)
     = sumOver
         (binHeat (Vars.heatMMBtu
                     (calcVars cheapGas true DEFAULT_COP DEFAULT_BINS)))
         (normalizeBins (parsePairs DEFAULT_BINS)).
Proof.
  intros cheapGas dearGas. split.
  - pose proof (hybridGas_accounting dearGas DEFAULT_COP DEFAULT_BINS) as H.
    cbv zeta in H. destruct H as (_ & _ & _ & Hhp & _).
    apply Hhp.
    apply (Forall_forallb (fun row => (row_cheaper row =? "HP")%string)).
    + intros row Hrow. apply String.eqb_eq. exact Hrow.
    + vm_compute. reflexivity.
  - pose proof (hybridGas_accounting cheapGas DEFAULT_COP DEFAULT_BINS) as H.
    cbv zeta in H. destruct H as (_ & _ & _ & _ & Hgas & _).
    apply Hgas.
    apply (Forall_forallb (fun row => (row_cheaper row =? "Gas")%string)).
    + intros row Hrow. apply String.eqb_eq. exact Hrow.
    + vm_compute. reflexivity.
Defined.

(** ** Further properties: the crossover series and the cost curve *)

Lemma last_Forall {A : Type} (P : A -> Prop) (l : list A) (d : A) :
  Forall P l -> P d -> P (last l d).
Proof.
  intros Hl Hd. induction l as [|a l IH]; [exact Hd|].
  inversion Hl; subst. destruct l as [|b l]; [assumption|].
  rewrite last_cons_cons. apply IH. assumption.
Qed.

Lemma crossScan_trace (table : list coord) (allInEH gas tMax : num) :
  forall (fuel : nat) (t prevT prevDiff : num)
         (series out : list seriesPoint) (temp : option num),
    crossScan fuel table allInEH gas tMax t prevT prevDiff series
    = (temp, out) ->
    exists n : nat,
      (n <= fuel)%nat
      /\ out = series
               ++ map (fun u => mkPoint u (hpCostAt table allInEH u) gas)
                    (stepsFrom t n).
Proof.
  induction fuel as [|fuel IH]; intros t prevT prevDiff series out temp Hrun.
  - simpl in Hrun. inversion Hrun. exists O.
    split; [lia|]. simpl. rewrite app_nil_r. reflexivity.
  - cbn [crossScan] in Hrun. destruct (jle t tMax).
    + destruct (signChange _ _).
      * inversion Hrun. exists 1%nat. split; [lia|]. reflexivity.
      * apply IH in Hrun. destruct Hrun as (n & Hn & E).
        exists (S n). split; [lia|]. rewrite E, <- app_assoc. reflexivity.
    + inversion Hrun. exists O.
      split; [lia|]. simpl. rewrite app_nil_r. reflexivity.
Qed.

Lemma scan_bounds (x y : Q) :
  exists lo hi : Q,
    Math_min (Fin (-20)) (Fin x) = Fin lo
    /\ Math_max (Fin 65) (Fin y) = Fin hi
    /\ lo <= -20 /\ 65 <= hi.
Proof.
  unfold Math_min, Math_max. cbn [jcmp].
  destruct (Qcompare_spec (-20) x) as [E1|E1|E1];
    destruct (Qcompare_spec 65 y) as [E2|E2|E2];
    eexists; eexists; (split; [reflexivity|]); (split; [reflexivity|]);
    split; lra.
Qed.

Lemma stepsFrom_length (t : num) (n : nat) :
  List.length (stepsFrom t n) = n.
Proof.
  revert t. induction n as [|n IH]; intro t; simpl; [reflexivity|].
  rewrite IH. reflexivity.
Qed.

Lemma crossoverSeries_grid_aux (inputs : Inputs.t)
    (copText binsText : string) (first second : coord) (rest : list coord) :
  parsePairs copText = first :: second :: rest ->
  let v := calcVars inputs true copText binsText in
  let r := calc inputs true copText binsText in
  let table := first :: second :: rest in
  let tMin := Math_min (Fin (-20)) (cx first) in
  let tMax := Math_max (Fin 65) (cx (last table first)) in
  exists n : nat,
    (1 <= n <= scanFuel tMin tMax)%nat
    /\ Out.crossoverSeries r
       = map (fun u => mkPoint u (hpCostAt table (Vars.allInEH v) u)
                         (Vars.costGasPerMMBtu v))
           (stepsFrom tMin n)
    /\ (Out.crossoverTemp r = None -> n = scanFuel tMin tMax).
Proof.
  intros Etable v r table tMin tMax. subst v r.
  unfold_calc. unfold crossover in Ecross. rewrite Etable in Ecross.
  fold table tMin tMax in Ecross.
  pose proof (parsePairs_finiteX copText) as Hfx. rewrite Etable in Hfx.
  assert (Hfirst : isFinite (cx first) = true) by (inversion Hfx; assumption).
  assert (Hlast : isFinite (cx (last table first)) = true).
  { apply (last_Forall (fun p => isFinite (cx p) = true)); assumption. }
  destruct (scan_bounds (val (cx first)) (val (cx (last table first))))
    as (lo & hi & Elo & Ehi & Hlo & Hhi).
  rewrite <- (isFinite_Fin _ Hfirst) in Elo.
  rewrite <- (isFinite_Fin _ Hlast) in Ehi.
  fold tMin in Elo. fold tMax in Ehi.
  destruct (crossScan _ _ _ _ _ _ _ _ _) as [temp out] eqn:Escan.
  assert (Hfuel : exists k, scanFuel tMin tMax = S k).
  { rewrite Elo, Ehi. rewrite (scanFuel_step lo hi) by lra.
    eexists; reflexivity. }
  destruct (crossScan_trace _ _ _ _ _ _ _ _ _ _ _ Escan) as (n & Hn & Eout).
  cbn [app] in Eout.
  assert (Hn1 : (1 <= n)%nat).
  { destruct Hfuel as (k & Ek). rewrite Ek in Escan.
    cbn [crossScan] in Escan.
    assert (Hle : jle tMin tMax = true)
      by (rewrite Elo, Ehi; apply jle_Fin; lra).
    rewrite Hle in Escan.
    destruct n as [|n]; [|lia]. exfalso.
    simpl in Eout. subst out.
    destruct (signChange _ _).
    - inversion Escan.
    - apply crossScan_trace in Escan. destruct Escan as (m & _ & E).
      apply (f_equal (@List.length _)) in E.
      rewrite length_app in E. simpl in E. lia. }
  assert (Hout : crossS = out /\ crossT = temp).
  { destruct temp; inversion Ecross; split; reflexivity. }
  destruct Hout as [-> ->].
  exists n. split; [lia|]. split; [exact Eout|].
  intro Hnone. subst temp.
  rewrite Elo, Ehi in Escan.
  apply crossScan_no_crossover in Escan; [|lia].
  rewrite Eout, length_map, stepsFrom_length in Escan.
  simpl in Escan. rewrite <- Elo, <- Ehi in Escan. exact Escan.
Qed.

(** With a COP table of two entries or more, the crossover series follows
    the grid of the scan: it holds the first [n] steps [tMin], [tMin + 1],
    ... of the loop variable, with [1 <= n], each with the heat-pump cost at
    its temperature and the one gas cost. *)
Theorem crossoverSeries_grid (inputs : Inputs.t)
    (copText binsText : string) (first second : coord) (rest : list coord) :
  parsePairs copText = first :: second :: rest ->
  let v := calcVars inputs true copText binsText in
  let r := calc inputs true copText binsText in
  let table := first :: second :: rest in
  let tMin := Math_min (Fin (-20)) (cx first) in
  exists n : nat,
    (1 <= n)%nat
    /\ Out.crossoverSeries r
       = map (fun u => mkPoint u (hpCostAt table (Vars.allInEH v) u)
                         (Vars.costGasPerMMBtu v))
           (stepsFrom tMin n).
Proof.
  intros Etable v r table tMin.
  destruct (crossoverSeries_grid_aux inputs copText binsText first second
              rest Etable) as (n & [Hn _] & Eseries & _).
  exists n. split; [exact Hn|exact Eseries].
Qed.

Lemma crossoverSeries_grid_witness :
  exists n : nat,
    (1 <= n)%nat
    /\ List.length
         (Out.crossoverSeries (calc defaultInputs true DEFAULT_COP
                                 DEFAULT_BINS)) = n.
Proof.
  set (T := parsePairs DEFAULT_COP).
  set (d := mkCoord NaN NaN).
  assert (E : parsePairs DEFAULT_COP = hd d T :: hd d (tl T) :: tl (tl T))
    by (vm_compute; reflexivity).
  destruct (crossoverSeries_grid defaultInputs DEFAULT_COP DEFAULT_BINS
              _ _ _ E) as (n & Hn & Eseries).
  exists n. split; [exact Hn|].
  rewrite Eseries, length_map. apply stepsFrom_length.
Defined.

Lemma curveLoop_trace (table : list coord) (allInEH gas : num) (M : Q) :
  forall (fuel : nat) (t : Q) (curve : list CostCurveVariant.curvePoint),
    (scanFuel (Fin t) (Fin M) <= fuel)%nat ->
    CostCurveVariant.curveLoop fuel table allInEH gas (Fin M) (Fin t) curve
    = curve
      ++ map (fun u => CostCurveVariant.mkCurvePoint u
                         (toFixed 2 (hpCostAt table allInEH u))
                         (toFixed 2 gas))
           (stepsFrom (Fin t) (scanFuel (Fin t) (Fin M))).
Proof.
  induction fuel as [|fuel IH]; intros t curve Hle.
  - assert (E : scanFuel (Fin t) (Fin M) = O) by lia.
    rewrite E. simpl. rewrite app_nil_r. reflexivity.
  - destruct (Qlt_le_dec M t) as [Hgt|Hin].
    + rewrite (scanFuel_stop t M Hgt). simpl.
      assert (E : jle (Fin t) (Fin M) = false)
        by (apply jle_Fin_false; exact Hgt).
      rewrite E, app_nil_r. reflexivity.
    + rewrite (scanFuel_step t M Hin) in *.
      change (jadd (Fin t) (Fin 1)) with (Fin (t + 1)) in *.
      cbn [CostCurveVariant.curveLoop stepsFrom map].
      assert (E : jle (Fin t) (Fin M) = true) by (apply jle_Fin; exact Hin).
      rewrite E.
      change (jadd (Fin t) (Fin 1)) with (Fin (t + 1)).
      rewrite IH by lia. rewrite <- app_assoc. reflexivity.
Qed.

Lemma costCurve_grid (copText : string) (allInEH gas : num)
    (first second : coord) (rest : list coord) :
  parsePairs copText = first :: second :: rest ->
  CostCurveVariant.costCurve true copText allInEH gas
  = map (fun u => CostCurveVariant.mkCurvePoint u
                    (toFixed 2 (hpCostAt (first :: second :: rest) allInEH u))
                    (toFixed 2 gas))
      (stepsFrom (Math_min (Fin (-20)) (cx first))
         (scanFuel (Math_min (Fin (-20)) (cx first))
            (Math_max (Fin 65)
               (cx (last (first :: second :: rest) first))))).
Proof.
  intro Etable. unfold CostCurveVariant.costCurve. rewrite Etable.
  cbv zeta.
  pose proof (parsePairs_finiteX copText) as Hfx. rewrite Etable in Hfx.
  assert (Hfirst : isFinite (cx first) = true) by (inversion Hfx; assumption).
  assert (Hlast : isFinite (cx (last (first :: second :: rest) first)) = true).
  { apply (last_Forall (fun p => isFinite (cx p) = true)); assumption. }
  destruct (scan_bounds (val (cx first))
              (val (cx (last (first :: second :: rest) first))))
    as (lo & hi & Elo & Ehi & _).
  rewrite <- (isFinite_Fin _ Hfirst) in Elo.
  rewrite <- (isFinite_Fin _ Hlast) in Ehi.
  rewrite Elo, Ehi. rewrite curveLoop_trace by lia. reflexivity.
Qed.

(** In the sibling variant the cost curve does not stop at the crossover:
    with a COP table of two entries or more it holds the first [n] steps
    [tMin], [tMin + 1], ... of its own loop, with [n] at least 86 (the
    steps from -20 to 65), each with the two costs at its temperature
    rounded to two decimals, whether a crossover exists or not; with a
    shorter table, or without the COP table, it is empty. *)
Theorem costCurve_complete (copText : string) (allInEH gas : num) :
  (forall first second rest,
     parsePairs copText = first :: second :: rest ->
     let table := first :: second :: rest in
     let tMin := Math_min (Fin (-20)) (cx first) in
     exists n : nat,
       (86 <= n)%nat
       /\ CostCurveVariant.costCurve true copText allInEH gas
          = map (fun u => CostCurveVariant.mkCurvePoint u
                            (toFixed 2 (hpCostAt table allInEH u))
                            (toFixed 2 gas))
              (stepsFrom tMin n))
  /\ ((List.length (parsePairs copText) < 2)%nat ->
      CostCurveVariant.costCurve true copText allInEH gas = [])
  /\ CostCurveVariant.costCurve false copText allInEH gas = [].
Proof.
  split; [|split].
  - intros first second rest Etable table tMin.
    set (tMax := Math_max (Fin 65) (cx (last table first))).
    exists (scanFuel tMin tMax). split.
    + pose proof (parsePairs_finiteX copText) as Hfx. rewrite Etable in Hfx.
      assert (Hfirst : isFinite (cx first) = true)
        by (inversion Hfx; assumption).
      assert (Hlast : isFinite (cx (last table first)) = true).
      { apply (last_Forall (fun p => isFinite (cx p) = true)); assumption. }
      destruct (scan_bounds (val (cx first)) (val (cx (last table first))))
        as (lo & hi & Elo & Ehi & Hlo & Hhi).
      rewrite <- (isFinite_Fin _ Hfirst) in Elo.
      rewrite <- (isFinite_Fin _ Hlast) in Ehi.
      fold tMin in Elo. fold tMax in Ehi. rewrite Elo, Ehi.
      unfold scanFuel. change (jsub (Fin hi) (Fin lo)) with (Fin (hi - lo)).
      cbv beta iota.
      assert (H85 : (85 <= Qfloor (hi - lo))%Z).
      { rewrite <- (Qfloor_Z 85). apply Qfloor_resp_le.
        change (inject_Z 85) with 85. lra. }
      lia.
    + exact (costCurve_grid copText allInEH gas first second rest Etable).
  - intro Hlen. unfold CostCurveVariant.costCurve.
    destruct (parsePairs copText) as [|a [|b l]]; try reflexivity.
    simpl in Hlen. lia.
  - reflexivity.
Qed.

Lemma costCurve_complete_witness :
  (86 <= List.length
           (CostCurveVariant.costCurve true DEFAULT_COP (Fin (8022 # 100000))
              (Fin (772 # 100))))%nat.
Proof.
  set (T := parsePairs DEFAULT_COP).
  set (d := mkCoord NaN NaN).
  assert (E : parsePairs DEFAULT_COP = hd d T :: hd d (tl T) :: tl (tl T))
    by (vm_compute; reflexivity).
  destruct (proj1 (costCurve_complete DEFAULT_COP (Fin (8022 # 100000))
                     (Fin (772 # 100))) _ _ _ E) as (n & Hn & Ecurve).
  rewrite Ecurve, length_map, stepsFrom_length. exact Hn.
Defined.

Lemma stepsFrom_firstn (t : num) (n m : nat) :
  (n <= m)%nat -> stepsFrom t n = firstn n (stepsFrom t m).
Proof.
  revert t m. induction n as [|n IH]; intros t m Hle; [reflexivity|].
  destruct m as [|m]; [lia|]. simpl. f_equal. apply IH. lia.
Qed.

(** The crossover series of the component is an initial segment of the
    cost curve of the sibling variant: the same temperatures in the same
    order, the curve going on to [tMax] where the series stops at the
    crossover. *)
Theorem series_prefix_of_costCurve (inputs : Inputs.t)
    (copText binsText : string) :
  let v := calcVars inputs true copText binsText in
  let r := calc inputs true copText binsText in
  let curve :=
    CostCurveVariant.costCurve true copText (Vars.allInEH v)
      (Vars.costGasPerMMBtu v) in
  map pt_t (Out.crossoverSeries r)
  = firstn (List.length (Out.crossoverSeries r))
      (map CostCurveVariant.cp_t curve)
  /\ (Out.crossoverTemp r = None ->
      map pt_t (Out.crossoverSeries r) = map CostCurveVariant.cp_t curve).
Proof.
  cbv zeta.
  destruct (parsePairs copText) as [|first [|second rest]] eqn:Etable.
  - unfold_calc. unfold crossover in Ecross. rewrite Etable in Ecross.
    inversion Ecross. unfold CostCurveVariant.costCurve. rewrite Etable.
    split; reflexivity.
  - unfold_calc. unfold crossover in Ecross. rewrite Etable in Ecross.
    inversion Ecross. unfold CostCurveVariant.costCurve. rewrite Etable.
    split; reflexivity.
  - destruct (crossoverSeries_grid_aux inputs copText binsText first second
                rest Etable) as (n & [Hn1 Hn] & Eseries & Hnone).
    rewrite (costCurve_grid _ _ _ first second rest Etable).
    rewrite Eseries. rewrite !map_map. cbn [pt_t CostCurveVariant.cp_t].
    rewrite !map_id, length_map, stepsFrom_length.
    split.
    + apply stepsFrom_firstn. exact Hn.
    + intro Ht. rewrite (Hnone Ht). reflexivity.
Qed.

(** ** Further properties: the crossover temperature and the notes *)

Lemma signChange_Fin (pd d : Q) :
  signChange (Fin pd) (Fin d) = true
  <-> (pd <= 0 /\ 0 <= d) \/ (0 <= pd /\ d <= 0).
Proof.
  unfold signChange, jge.
  rewrite orb_true_iff, !andb_true_iff, !jle_Fin. reflexivity.
Qed.

Lemma jlt_jle (a b : num) : jlt a b = true -> jle a b = true.
Proof.
  unfold jlt, jle. destruct (jcmp a b) as [[| |]|]; congruence.
Qed.

Lemma not_jle_jlt (a b : num) :
  a <> NaN -> b <> NaN -> jle a b = false -> jlt b a = true.
Proof.
  destruct a as [p| | |], b as [q| | |]; intros Ha Hb H;
    try congruence; try reflexivity; try discriminate.
  apply jle_Fin_false in H. apply jlt_Fin. exact H.
Qed.

Lemma jlt_diff (a b : num) :
  jlt (jsub a b) (Fin 0) = true -> jlt a b = true.
Proof.
  destruct a as [p| | |], b as [q| | |]; intro H;
    try reflexivity; try discriminate H.
  apply jlt_Fin in H. apply jlt_Fin. lra.
Qed.

Lemma jgt_diff (a b : num) :
  jgt (jsub a b) (Fin 0) = true -> jgt a b = true.
Proof.
  unfold jgt. destruct a as [p| | |], b as [q| | |]; intro H;
    try reflexivity; try discriminate H.
  apply jlt_Fin in H. apply jlt_Fin. lra.
Qed.

(** Without a change of sign a negative difference is followed by a
    negative one, a positive difference by a positive one. *)
Lemma no_change_below (pd d : num) :
  jlt pd (Fin 0) = true -> d <> NaN -> signChange pd d = false ->
  jlt d (Fin 0) = true.
Proof.
  intros Hpd Hd H. unfold signChange, jge in H.
  apply orb_false_iff in H. destruct H as [H _].
  apply andb_false_iff in H. destruct H as [H|H].
  - rewrite (jlt_jle _ _ Hpd) in H. discriminate.
  - apply not_jle_jlt; [discriminate|exact Hd|exact H].
Qed.

Lemma no_change_above (pd d : num) :
  jgt pd (Fin 0) = true -> d <> NaN -> signChange pd d = false ->
  jgt d (Fin 0) = true.
Proof.
  unfold jgt. intros Hpd Hd H. unfold signChange, jge in H.
  apply orb_false_iff in H. destruct H as [_ H].
  apply andb_false_iff in H. destruct H as [H|H].
  - rewrite (jlt_jle _ _ Hpd) in H. discriminate.
  - apply not_jle_jlt; [exact Hd|discriminate|exact H].
Qed.

Section ScanSigns.

Variables (table : list coord) (allInEH gas tMax : num).

Lemma crossScan_below :
  forall (fuel : nat) (t prevT pd : num) (series out : list seriesPoint),
    jlt pd (Fin 0) = true ->
    crossScan fuel table allInEH gas tMax t prevT pd series = (None, out) ->
    Forall (fun p => diffOf p <> NaN) out ->
    Forall (fun p => jlt (pt_hp p) (pt_gas p) = true) series ->
    Forall (fun p => jlt (pt_hp p) (pt_gas p) = true) out.
Proof.
  induction fuel as [|fuel IH]; intros t prevT pd series out Hpd Hrun Hnum Hs.
  - inversion Hrun. subst. exact Hs.
  - cbn [crossScan] in Hrun.
    destruct (jle t tMax); [|inversion Hrun; subst; exact Hs].
    destruct (signChange pd (jsub (hpCostAt table allInEH t) gas)) eqn:Esc;
      [discriminate|].
    destruct (crossScan_trace _ _ _ _ _ _ _ _ _ _ _ Hrun) as (n & _ & Eout).
    assert (Hpt : jsub (hpCostAt table allInEH t) gas <> NaN).
    { rewrite Eout in Hnum. apply Forall_app in Hnum.
      destruct Hnum as [Hnum _]. apply Forall_app in Hnum.
      destruct Hnum as [_ Hnum]. inversion Hnum; assumption. }
    pose proof (no_change_below _ _ Hpd Hpt Esc) as Hd.
    apply (IH _ _ _ _ _ Hd Hrun Hnum).
    apply Forall_app. split; [exact Hs|].
    constructor; [|constructor]. cbn [pt_hp pt_gas].
    apply jlt_diff. exact Hd.
Qed.

Lemma crossScan_above :
  forall (fuel : nat) (t prevT pd : num) (series out : list seriesPoint),
    jgt pd (Fin 0) = true ->
    crossScan fuel table allInEH gas tMax t prevT pd series = (None, out) ->
    Forall (fun p => diffOf p <> NaN) out ->
    Forall (fun p => jgt (pt_hp p) (pt_gas p) = true) series ->
    Forall (fun p => jgt (pt_hp p) (pt_gas p) = true) out.
Proof.
  induction fuel as [|fuel IH]; intros t prevT pd series out Hpd Hrun Hnum Hs.
  - inversion Hrun. subst. exact Hs.
  - cbn [crossScan] in Hrun.
    destruct (jle t tMax); [|inversion Hrun; subst; exact Hs].
    destruct (signChange pd (jsub (hpCostAt table allInEH t) gas)) eqn:Esc;
      [discriminate|].
    destruct (crossScan_trace _ _ _ _ _ _ _ _ _ _ _ Hrun) as (n & _ & Eout).
    assert (Hpt : jsub (hpCostAt table allInEH t) gas <> NaN).
    { rewrite Eout in Hnum. apply Forall_app in Hnum.
      destruct Hnum as [Hnum _]. apply Forall_app in Hnum.
      destruct Hnum as [_ Hnum]. inversion Hnum; assumption. }
    pose proof (no_change_above _ _ Hpd Hpt Esc) as Hd.
    apply (IH _ _ _ _ _ Hd Hrun Hnum).
    apply Forall_app. split; [exact Hs|].
    constructor; [|constructor]. cbn [pt_hp pt_gas].
    apply jgt_diff. exact Hd.
Qed.

(** A scan that breaks has pushed, after the points it started with, the
    points without a change of sign and then the point of the change; the
    temperature it gives is interpolated between the last two. *)
Lemma crossScan_first_change :
  forall (fuel : nat) (t prevT pd : num) (series out : list seriesPoint)
         (c : num),
    crossScan fuel table allInEH gas tMax t prevT pd series = (Some c, out) ->
    exists (mid : list seriesPoint) (cur : seriesPoint),
      out = series ++ mid ++ [cur]
      /\ changeFree pd mid = true
      /\ signChange (fold_left (fun _ p => diffOf p) mid pd) (diffOf cur)
         = true
      /\ c = crossingAt (fold_left (fun _ p => pt_t p) mid prevT)
               (fold_left (fun _ p => diffOf p) mid pd)
               (pt_t cur) (diffOf cur).
Proof.
  induction fuel as [|fuel IH]; intros t prevT pd series out c Hrun;
    [discriminate|].
  cbn [crossScan] in Hrun.
  destruct (jle t tMax); [|discriminate].
  destruct (signChange pd (jsub (hpCostAt table allInEH t) gas)) eqn:Esc.
  - inversion Hrun. exists [], (mkPoint t (hpCostAt table allInEH t) gas).
    repeat split. exact Esc.
  - apply IH in Hrun. destruct Hrun as (mid & cur & Eout & Hfree & Hsc & Ec).
    exists (mkPoint t (hpCostAt table allInEH t) gas :: mid), cur.
    split; [rewrite Eout, <- app_assoc; reflexivity|].
    split; [|split; assumption].
    change (negb (signChange pd (jsub (hpCostAt table allInEH t) gas))
            && changeFree (jsub (hpCostAt table allInEH t) gas) mid = true).
    rewrite Esc. exact Hfree.
Qed.

End ScanSigns.

Lemma fold_last {A B : Type} (f : A -> B) (l : list A) (a : A) :
  fold_left (fun _ p => f p) l (f a) = f (last l a).
Proof.
  revert a. induction l as [|x l IH]; intro a; [reflexivity|].
  cbn [fold_left]. rewrite IH. destruct l as [|y l]; [reflexivity|].
  rewrite last_cons_cons. f_equal. apply last_indep.
Qed.

(** The first step of [crossover] on a table of two entries or more. *)
Lemma crossover_first_step (copText : string) (allInEH gas : num)
    (first second : coord) (rest : list coord) :
  parsePairs copText = first :: second :: rest ->
  let table := first :: second :: rest in
  let tMin := Math_min (Fin (-20)) (cx first) in
  let tMax := Math_max (Fin 65) (cx (last table first)) in
  exists k : nat,
    scanFuel tMin tMax = S k /\ jle tMin tMax = true.
Proof.
  intros Etable table tMin tMax.
  pose proof (parsePairs_finiteX copText) as Hfx. rewrite Etable in Hfx.
  assert (Hfirst : isFinite (cx first) = true) by (inversion Hfx; assumption).
  assert (Hlast : isFinite (cx (last table first)) = true).
  { apply (last_Forall (fun p => isFinite (cx p) = true)); assumption. }
  destruct (scan_bounds (val (cx first)) (val (cx (last table first))))
    as (lo & hi & Elo & Ehi & Hlo & Hhi).
  rewrite <- (isFinite_Fin _ Hfirst) in Elo.
  rewrite <- (isFinite_Fin _ Hlast) in Ehi.
  fold tMin in Elo. fold tMax in Ehi. rewrite Elo, Ehi.
  exists (scanFuel (jadd (Fin lo) (Fin 1)) (Fin hi)).
  split; [apply scanFuel_step; lra|apply jle_Fin; lra].
Qed.

(** The crossover reported is the first change of sign on the grid.  With
    a COP table of two entries or more, when [calc] reports a crossover
    temperature, the note is empty and the series ends at the first point
    whose cost difference [hp - gas] changes sign against the point before
    it (against itself for the first point, which is then a crossover when
    the two costs are equal); the temperature reported is interpolated
    between these two points, [prevT + frac * (t - prevT)] rounded to one
    decimal. *)
Theorem crossover_first_change (copText : string) (allInEH gas : num)
    (first second : coord) (rest : list coord)
    (c : num) (note : string) (series : list seriesPoint) :
  parsePairs copText = first :: second :: rest ->
  crossover true copText allInEH gas = (Some c, note, series) ->
  note = ""
  /\ exists (front : list seriesPoint) (cur : seriesPoint),
       series = front ++ [cur]
       /\ changeFree (diffOf (hd cur front)) front = true
       /\ signChange (diffOf (last front cur)) (diffOf cur) = true
       /\ c = crossingAt (pt_t (last front cur)) (diffOf (last front cur))
                (pt_t cur) (diffOf cur).
Proof.
  intros Etable Hrun.
  destruct (crossover_first_step copText allInEH gas first second rest Etable)
    as (k & Efuel & Ele).
  unfold crossover in Hrun. rewrite Etable in Hrun. cbv zeta in Hrun.
  destruct (crossScan _ _ _ _ _ _ _ _ _) as [temp out] eqn:Escan.
  destruct temp as [c'|]; [|discriminate].
  inversion Hrun; subst c' note out. split; [reflexivity|].
  rewrite Efuel in Escan. cbn [crossScan] in Escan. rewrite Ele in Escan.
  set (table := first :: second :: rest) in *.
  set (tMin := Math_min (Fin (-20)) (cx first)) in *.
  set (p0 := mkPoint tMin (hpCostAt table allInEH tMin) gas) in *.
  change (jsub (hpCostAt table allInEH tMin) gas) with (diffOf p0) in Escan.
  destruct (signChange (diffOf p0) (diffOf p0)) eqn:Esc.
  - inversion Escan. exists [], p0. repeat split. exact Esc.
  - apply crossScan_first_change in Escan.
    destruct Escan as (mid & cur & Eout & Hfree & Hsc & Ec).
    exists (p0 :: mid), cur. cbn [app] in Eout.
    split; [exact Eout|].
    split.
    { change (negb (signChange (diffOf p0) (diffOf p0))
              && changeFree (diffOf p0) mid = true).
      rewrite Esc. exact Hfree. }
    change tMin with (pt_t p0) in Ec.
    rewrite (fold_last diffOf mid p0) in Hsc, Ec.
    rewrite (fold_last pt_t mid p0) in Ec.
    assert (El : last (p0 :: mid) cur = last mid p0).
    { destruct mid as [|x mid]; [reflexivity|].
      rewrite last_cons_cons. apply last_indep. }
    rewrite El. split; assumption.
Qed.

Lemma crossover_first_change_witness :
  let X := crossover true DEFAULT_COP (Fin (8 # 100)) (Fin (772 # 100)) in
  exists (front : list seriesPoint) (cur : seriesPoint),
    snd X = front ++ [cur]
    /\ signChange (diffOf (last front cur)) (diffOf cur) = true.
Proof.
  intro X.
  set (T := parsePairs DEFAULT_COP).
  set (d := mkCoord NaN NaN).
  assert (Et : parsePairs DEFAULT_COP = hd d T :: hd d (tl T) :: tl (tl T))
    by (vm_compute; reflexivity).
  assert (Ex : X = (Some (match fst (fst X) with Some c => c | None => NaN end),
                    snd (fst X), snd X))
    by (vm_compute; reflexivity).
  pose proof (crossover_first_change DEFAULT_COP (Fin (8 # 100))
                (Fin (772 # 100)) (hd d T) (hd d (tl T)) (tl (tl T))
                (match fst (fst X) with Some c => c | None => NaN end)
                (snd (fst X)) (snd X) Et Ex) as H.
  destruct H as (_ & front & cur & Es & _ & Hsc & _).
  exists front, cur. split; assumption.
Defined.

(** The notes are sound on the series.  With a COP table of two entries or
    more, when no cost difference [hp - gas] of the series is [NaN]: the
    series is not empty; when [calc] notes that the heat pump is cheaper at
    all temperatures, no crossover is reported and the heat-pump cost is
    below the gas cost at every point of the series; when it notes that gas
    is cheaper at all temperatures, the heat-pump cost is above the gas
    cost at every point. *)
Theorem crossover_notes_sound (copText : string) (allInEH gas : num)
    (first second : coord) (rest : list coord)
    (temp : option num) (note : string) (series : list seriesPoint) :
  parsePairs copText = first :: second :: rest ->
  crossover true copText allInEH gas = (temp, note, series) ->
  Forall (fun p => diffOf p <> NaN) series ->
  series <> []
  /\ (note = NOTE_HP ->
      temp = None
      /\ Forall (fun p => jlt (pt_hp p) (pt_gas p) = true) series)
  /\ (note = NOTE_GAS ->
      temp = None
      /\ Forall (fun p => jgt (pt_hp p) (pt_gas p) = true) series).
Proof.
  intros Etable Hrun Hnum.
  destruct (crossover_first_step copText allInEH gas first second rest Etable)
    as (k & Efuel & Ele).
  unfold crossover in Hrun. rewrite Etable in Hrun. cbv zeta in Hrun.
  set (table := first :: second :: rest) in *.
  set (tMin := Math_min (Fin (-20)) (cx first)) in *.
  set (tMax := Math_max (Fin 65) (cx (last table first))) in *.
  destruct (crossScan _ _ _ _ _ _ _ _ _) as [t0 out] eqn:Escan.
  assert (Hne : out <> []).
  { pose proof Escan as Hfirst. rewrite Efuel in Hfirst.
    cbn [crossScan] in Hfirst. rewrite Ele in Hfirst.
    destruct (signChange _ _).
    - inversion Hfirst. discriminate.
    - apply crossScan_trace in Hfirst. destruct Hfirst as (n & _ & E).
      rewrite E. discriminate. }
  destruct t0 as [c|].
  { inversion Hrun; subst.
    split; [exact Hne|]. split; intro; discriminate. }
  destruct (jlt (jsub (hpCostAt table allInEH tMin) gas) (Fin 0)
            && jlt (jsub (hpCostAt table allInEH tMax) gas) (Fin 0))
    eqn:Ehp.
  - inversion Hrun; subst temp note series.
    split; [exact Hne|]. split; [|intro; discriminate]. intros _.
    split; [reflexivity|].
    apply andb_true_iff in Ehp. destruct Ehp as [Ehp _].
    apply (crossScan_below _ _ _ _ _ _ _ _ _ _ Ehp Escan Hnum (Forall_nil _)).
  - destruct (jgt (jsub (hpCostAt table allInEH tMin) gas) (Fin 0)
              && jgt (jsub (hpCostAt table allInEH tMax) gas) (Fin 0))
      eqn:Egas.
    + inversion Hrun; subst temp note series.
      split; [exact Hne|]. split; [intro; discriminate|]. intros _.
      split; [reflexivity|].
      apply andb_true_iff in Egas. destruct Egas as [Egas _].
      apply (crossScan_above _ _ _ _ _ _ _ _ _ _ Egas Escan Hnum
               (Forall_nil _)).
    + inversion Hrun; subst.
      split; [exact Hne|]. split; intro; discriminate.
Qed.

Lemma crossover_notes_sound_witness :
  let X := crossover true "0:3,10:4" (Fin (1 # 100)) (Fin 100) in
  snd X <> []
  /\ Forall (fun p => jlt (pt_hp p) (pt_gas p) = true) (snd X).
Proof.
  intro X.
  set (T := parsePairs "0:3,10:4").
  set (d := mkCoord NaN NaN).
  assert (Et : parsePairs "0:3,10:4" = hd d T :: hd d (tl T) :: tl (tl T))
    by (vm_compute; reflexivity).
  assert (Ex : X = (fst (fst X), snd (fst X), snd X))
    by (vm_compute; reflexivity).
  assert (En : snd (fst X) = NOTE_HP) by (vm_compute; reflexivity).
  assert (Hnum : Forall (fun p => diffOf p <> NaN) (snd X)).
  { apply (Forall_forallb (fun p => isFinite (diffOf p))).
    - intros p Hp. apply isFinite_number. exact Hp.
    - vm_compute. reflexivity. }
  pose proof (crossover_notes_sound "0:3,10:4" (Fin (1 # 100)) (Fin 100)
                (hd d T) (hd d (tl T)) (tl (tl T))
                (fst (fst X)) (snd (fst X)) (snd X) Et Ex Hnum) as H.
  destruct H as (Hne & Hhp & _).
  split; [exact Hne|]. apply (Hhp En).
Defined.

(** ** Further properties: the two variants of the crossover search *)

Lemma interpCOP_short (table : list coord) (t : num) :
  (List.length table <= 1)%nat ->
  interpCOP table t
  = match table with
    | [] => Fin (22 # 10)
    | p :: _ => cy p
    end.
Proof.
  intro Hlen. destruct table as [|p [|q l]]; [reflexivity| |simpl in Hlen; lia].
  unfold interpCOP. simpl.
  destruct (jle t (cx p)); [reflexivity|].
  destruct (jge t (cx p)); reflexivity.
Qed.

Lemma crossScan_scanLoop (table : list coord) (allInEH gas tMax : num) :
  forall (fuel : nat) (t prevT prevDiff : num) (series : list seriesPoint),
    fst (crossScan fuel table allInEH gas tMax t prevT prevDiff series)
    = CostCurveVariant.scanLoop fuel table allInEH gas tMax t prevT prevDiff.
Proof.
  induction fuel as [|fuel IH]; intros t prevT prevDiff series;
    [reflexivity|].
  cbn [crossScan CostCurveVariant.scanLoop].
  destruct (jle t tMax); [|reflexivity].
  destruct (signChange _ _); [reflexivity|]. apply IH.
Qed.

(** The two variants find the same crossover temperature.  With a COP
    table of two entries or more, and unless the scan of the component
    breaks on its very first step (the two costs exactly equal at [tMin]),
    the search of the sibling variant, which starts one step above [tMin],
    gives the crossover temperature that [calc] gives. *)
Theorem crossover_variants_agree (copText : string) (allInEH gas : num)
    (first second : coord) (rest : list coord) :
  parsePairs copText = first :: second :: rest ->
  let table := first :: second :: rest in
  let tMin := Math_min (Fin (-20)) (cx first) in
  let diffAtMin := jsub (hpCostAt table allInEH tMin) gas in
  signChange diffAtMin diffAtMin = false ->
  fst (fst (crossover true copText allInEH gas))
  = fst (CostCurveVariant.crossover true copText allInEH gas).
Proof.
  intros Etable table tMin diffAtMin Hfirst.
  unfold crossover, CostCurveVariant.crossover. rewrite Etable.
  cbv zeta. fold table tMin diffAtMin.
  set (tMax := Math_max (Fin 65) (cx (last table first))).
  pose proof (parsePairs_finiteX copText) as Hfx. rewrite Etable in Hfx.
  assert (Hf1 : isFinite (cx first) = true) by (inversion Hfx; assumption).
  assert (Hlast : isFinite (cx (last table first)) = true).
  { apply (last_Forall (fun p => isFinite (cx p) = true)); assumption. }
  destruct (scan_bounds (val (cx first)) (val (cx (last table first))))
    as (lo & hi & Elo & Ehi & Hlo & Hhi).
  rewrite <- (isFinite_Fin _ Hf1) in Elo.
  rewrite <- (isFinite_Fin _ Hlast) in Ehi.
  fold tMin in Elo. fold tMax in Ehi.
  assert (Efuel : scanFuel tMin tMax = S (scanFuel (jadd tMin (Fin 1)) tMax)).
  { rewrite Elo, Ehi. apply scanFuel_step. lra. }
  rewrite Efuel. cbn [crossScan].
  assert (Ele : jle tMin tMax = true)
    by (rewrite Elo, Ehi; apply jle_Fin; lra).
  rewrite Ele. fold diffAtMin. rewrite Hfirst.
  rewrite <- (crossScan_scanLoop table allInEH gas tMax _ _ _ _
                ([] ++ [mkPoint tMin (hpCostAt table allInEH tMin) gas])).
  destruct (crossScan _ _ _ _ _ _ _ _ _) as [[c|] out]; reflexivity.
Qed.

Lemma crossover_variants_agree_witness :
  fst (fst (crossover true DEFAULT_COP (Fin (8 # 100)) (Fin (772 # 100))))
  = fst (CostCurveVariant.crossover true DEFAULT_COP (Fin (8 # 100))
           (Fin (772 # 100))).
Proof.
  set (T := parsePairs DEFAULT_COP).
  set (d := mkCoord NaN NaN).
  assert (Et : parsePairs DEFAULT_COP = hd d T :: hd d (tl T) :: tl (tl T))
    by (vm_compute; reflexivity).
  apply (crossover_variants_agree DEFAULT_COP _ _ _ _ _ Et).
  vm_compute. reflexivity.
Defined.

Lemma scanLoop_constant (table : list coord) (allInEH gas tMax d : num) :
  (forall t, jsub (hpCostAt table allInEH t) gas = d) ->
  signChange d d = false ->
  forall (fuel : nat) (t prevT : num),
    CostCurveVariant.scanLoop fuel table allInEH gas tMax t prevT d = None.
Proof.
  intros Hconst Hd. induction fuel as [|fuel IH]; intros t prevT;
    [reflexivity|].
  cbn [CostCurveVariant.scanLoop]. destruct (jle t tMax); [|reflexivity].
  rewrite Hconst, Hd. apply IH.
Qed.

Lemma signChange_same (d : num) :
  jlt d (Fin 0) = true \/ jgt d (Fin 0) = true -> signChange d d = false.
Proof.
  unfold jgt. destruct d as [q| | |]; intros [H|H];
    try discriminate; try reflexivity.
  - apply jlt_Fin in H.
    destruct (signChange (Fin q) (Fin q)) eqn:E; [|reflexivity].
    apply signChange_Fin in E. destruct E as [[? ?]|[? ?]]; lra.
  - apply jlt_Fin in H.
    destruct (signChange (Fin q) (Fin q)) eqn:E; [|reflexivity].
    apply signChange_Fin in E. destruct E as [[? ?]|[? ?]]; lra.
Qed.

Lemma jgt_not_jlt (d : num) :
  jgt d (Fin 0) = true -> jlt d (Fin 0) = false.
Proof.
  unfold jgt. destruct d as [q| | |]; intro H;
    try discriminate; try reflexivity.
  apply jlt_Fin in H.
  destruct (jlt (Fin q) (Fin 0)) eqn:E; [|reflexivity].
  apply jlt_Fin in E. lra.
Qed.

(** In the sibling variant a COP table of fewer than two entries still gets
    a verdict: the heat-pump cost is then the same at every temperature
    (from the one COP of the table, or 2.2), no crossover is found, and
    the note says which of the two is cheaper at all temperatures. *)
Theorem variant_short_table (copText : string) (allInEH gas : num) :
  (List.length (parsePairs copText) < 2)%nat ->
  let cop :=
    match parsePairs copText with
    | [] => Fin (22 # 10)
    | p :: _ => cy p
    end in
  let diff := jsub (jmul (jdiv kWhPerMMBtu cop) allInEH) gas in
  (jlt diff (Fin 0) = true ->
   CostCurveVariant.crossover true copText allInEH gas
   = (None, "HP cheaper at all temperatures in range"))
  /\ (jgt diff (Fin 0) = true ->
      CostCurveVariant.crossover true copText allInEH gas
      = (None, "Gas cheaper at all temperatures in range")).
Proof.
  intros Hlen cop diff.
  assert (Hconst : forall t,
            jsub (hpCostAt (parsePairs copText) allInEH t) gas = diff).
  { intro t. unfold hpCostAt. rewrite interpCOP_short by lia. reflexivity. }
  unfold CostCurveVariant.crossover. cbv zeta.
  rewrite !Hconst.
  split; intro Hd.
  - rewrite (scanLoop_constant _ _ _ _ _ Hconst
               (signChange_same diff (or_introl Hd))).
    rewrite Hd. reflexivity.
  - rewrite (scanLoop_constant _ _ _ _ _ Hconst
               (signChange_same diff (or_intror Hd))).
    rewrite Hd, (jgt_not_jlt _ Hd). reflexivity.
Qed.

Lemma variant_short_table_witness :
  CostCurveVariant.crossover true "47:3" (Fin (8 # 100)) (Fin (772 # 100))
  = (None, "Gas cheaper at all temperatures in range").
Proof.
  apply (proj2 (variant_short_table "47:3" (Fin (8 # 100))
                  (Fin (772 # 100)) ltac:(vm_compute; lia))).
  vm_compute. reflexivity.
Defined.
